(** * gopkgcp: path classification, tree copy, dependency selection and
      module rewriting, embedded from [main.go]. *)

From Stdlib Require Import String Ascii NArith Arith Lia.
From stdpp Require Import base option list gmap strings sorting.

Local Open Scope stdpp_scope.

(** ** Go strings

    A Go [string] is a sequence of bytes; it is embedded as [string], whose
    characters are the 8-bit [ascii]. *)

Module utf8.

(** [unicode/utf8]: only the width of the first rune of a string is needed
    here (by [strings.Replace] when the pattern is empty). *)

Definition locb : N := 0x80.
Definition hicb : N := 0xBF.

Definition xx : N := 0xF1.
Definition as_ : N := 0xF0.

(** The table [first]: information about the first byte of an encoding. *)
Definition first (b : N) : N :=
  if (b <? 0x80)%N then as_
  else if (b <? 0xC2)%N then xx
  else if (b <? 0xE0)%N then 0x02
  else if (b =? 0xE0)%N then 0x13
  else if (b <? 0xED)%N then 0x03
  else if (b =? 0xED)%N then 0x23
  else if (b <? 0xF0)%N then 0x03
  else if (b =? 0xF0)%N then 0x34
  else if (b <? 0xF4)%N then 0x04
  else if (b =? 0xF4)%N then 0x44
  else xx.

Definition acceptRanges (i : N) : N * N :=
  match i with
  | 0 => (locb, hicb)
  | 1 => (0xA0, hicb)
  | 2 => (locb, 0x9F)
  | 3 => (0x90, hicb)
  | 4 => (locb, 0x8F)
  | _ => (0, 0)
  end%N.

Definition byte_at (i : nat) (s : string) : N :=
  match String.get i s with Some c => N_of_ascii c | None => 0%N end.

(** The second component of [DecodeRuneInString]. *)
Definition DecodeRuneWidth (s : string) : nat :=
  let n := String.length s in
  if Nat.ltb n 1 then 0 else
  let x := first (byte_at 0 s) in
  if (as_ <=? x)%N then 1 else
  let sz := N.to_nat (N.land x 7) in
  let accept := acceptRanges (N.shiftr x 4) in
  if Nat.ltb n sz then 1 else
  let s1 := byte_at 1 s in
  if ((s1 <? accept.1) || (accept.2 <? s1))%N then 1 else
  if Nat.leb sz 2 then 2 else
  let s2 := byte_at 2 s in
  if ((s2 <? locb) || (hicb <? s2))%N then 1 else
  if Nat.leb sz 3 then 3 else
  let s3 := byte_at 3 s in
  if ((s3 <? locb) || (hicb <? s3))%N then 1 else 4.

End utf8.

Module GoStrings.

(** [s[n:]], clamped at the end of [s]. *)
Fixpoint from (n : nat) (s : string) : string :=
  match n, s with
  | 0, _ => s
  | S n', String _ s' => from n' s'
  | S _, EmptyString => EmptyString
  end.

(** [s[:n]], clamped at the end of [s]. *)
Fixpoint upto (n : nat) (s : string) : string :=
  match n, s with
  | S n', String a s' => String a (upto n' s')
  | _, _ => EmptyString
  end.

(** [len(s) >= len(prefix) && s[:len(prefix)] == prefix] *)
Definition HasPrefix (s prefix : string) : bool :=
  Nat.leb (String.length prefix) (String.length s)
  && String.eqb (upto (String.length prefix) s) prefix.

(** [len(s) >= len(suffix) && s[len(s)-len(suffix):] == suffix] *)
Definition HasSuffix (s suffix : string) : bool :=
  Nat.leb (String.length suffix) (String.length s)
  && String.eqb (from (String.length s - String.length suffix) s) suffix.

Definition TrimPrefix (s prefix : string) : string :=
  if HasPrefix s prefix then from (String.length prefix) s else s.

(** Index of the first instance of [substr] in [s] ([None] for Go's -1). *)
Fixpoint Index (s substr : string) : option nat :=
  if HasPrefix s substr then Some 0
  else match s with
       | EmptyString => None
       | String _ s' => S <$> Index s' substr
       end.

(** [utf8.RuneCountInString]: the loop advances by the width of each rune;
    every step consumes at least one byte, so [String.length s] steps
    suffice. *)
Fixpoint runeCountLoop (fuel : nat) (s : string) : nat :=
  match fuel with
  | 0 => 0
  | S f =>
      match s with
      | EmptyString => 0
      | _ => S (runeCountLoop f (from (utf8.DecodeRuneWidth s) s))
      end
  end.

Definition RuneCountInString (s : string) : nat :=
  runeCountLoop (String.length s) s.

(** The loop of [Count] for a non-empty [substr]: each instance found
    consumes at least one byte. *)
Fixpoint countLoop (fuel : nat) (s substr : string) : nat :=
  match fuel with
  | 0 => 0
  | S f =>
      match Index s substr with
      | None => 0
      | Some i => S (countLoop f (from (i + String.length substr) s) substr)
      end
  end.

Definition Count (s substr : string) : nat :=
  if String.eqb substr "" then RuneCountInString s + 1
  else countLoop (String.length s) s substr.

(** The loop of [Replace]: [s] is the not yet written rest [s[start:]],
    [fst] tells the first iteration ([i == 0]). *)
Fixpoint replaceLoop (n : nat) (fst : bool) (s old new : string) : string :=
  match n with
  | 0 => s
  | S n' =>
      let j :=
        if String.eqb old "" then
          (if fst then 0 else utf8.DecodeRuneWidth s)
        else default 0 (Index s old) in
      upto j s +:+ new
        +:+ replaceLoop n' false (from (j + String.length old) s) old new
  end.

(** [ReplaceAll(s, old, new) = Replace(s, old, new, -1)] *)
Definition ReplaceAll (s old new : string) : string :=
  if String.eqb old new then s
  else
    let m := Count s old in
    if Nat.eqb m 0 then s else replaceLoop m true s old new.

End GoStrings.

Import GoStrings.

(** ** Path Classifier *)

Definition shouldSkipDir (name : string) : bool :=
  let skip := ["testdata"; "vendor"; ".git"; "_test"] in
  existsb (fun s => String.eqb name s || HasSuffix name s) skip.

Definition shouldCopyFile (name : string) : bool :=
  if HasSuffix name ".go" then
    if HasSuffix name "_test.go" then false else true
  else
    let important := ["go.mod"; "go.sum"; "LICENSE"; "README.md"] in
    existsb (fun f => String.eqb name f) important.

(** ** Dependency Selector (the classification in the copy loop of [main]) *)

Definition inModule (dep modulePath : string) : bool :=
  HasPrefix dep modulePath.

Definition relPathOf (dep modulePath : string) : string :=
  let relPath := TrimPrefix dep modulePath in
  TrimPrefix relPath "/".

(** ** The file system

    Paths are lists of components from the root; a node is a regular file or
    a directory, each with its permission bits.  The store maps the path of
    every existing node to it.

    The environment of the process is what the system calls consult and the
    program never inspects: the umask, the longest path the system accepts,
    and whether the process may read, write or search the node with a given
    mode at a given path (its credentials and the owners of the nodes stand
    behind this decision). *)

Inductive Node :=
| File (mode : N) (data : string)
| Dir (mode : N).

Abbreviation FS := (gmap (list string) Node).

Inductive Errno :=
  ENOENT | ENOTDIR | EISDIR | EEXIST | EACCES | ENAMETOOLONG.

Record PathError := mkPathError { Op : string; Path : list string; Err : Errno }.

Record FileInfo := mkFileInfo { Name : string; IsDir : bool; Mode : N }.

Inductive Access := ReadAccess | WriteAccess | SearchAccess.

Record Env := mkEnv {
  umask : N;
  pathMax : nat;
  allows : Access -> list string -> N -> bool
}.

Module os.

Definition nodeMode (n : Node) : N :=
  match n with File m _ => m | Dir m => m end.

Definition nodeIsDir (n : Node) : bool :=
  match n with File _ _ => false | Dir _ => true end.

Definition baseName (p : list string) : string := List.last p "/".

Definition infoOf (p : list string) (n : Node) : FileInfo :=
  {| Name := baseName p; IsDir := nodeIsDir n; Mode := nodeMode n |}.

Definition parent (p : list string) : list string := removelast p.

(** The length of the path as a string: every component with its
    separator. *)
Definition pathLen (p : list string) : nat :=
  foldr (fun c n => S (String.length c) + n) 0 p.

(** The way down to a path: every directory on the way exists and may be
    searched.  [pre] is the part walked, [rest] what is left. *)
Fixpoint ancestorsOk (env : Env) (fs : FS) (pre rest : list string)
  : option Errno :=
  match rest with
  | [] => None
  | c :: rest' =>
      match fs !! pre with
      | None => Some ENOENT
      | Some (File _ _) => Some ENOTDIR
      | Some (Dir m) =>
          if allows env SearchAccess pre m
          then ancestorsOk env fs (pre ++ [c]) rest'
          else Some EACCES
      end
  end.

(** Path resolution: the error of the way, or what the store has at the
    path ([None] when the last name is absent from its directory). *)
Definition resolve (env : Env) (fs : FS) (p : list string)
  : Errno + option Node :=
  if Nat.ltb (pathMax env) (pathLen p) then inl ENAMETOOLONG
  else match ancestorsOk env fs [] p with
       | Some e => inl e
       | None => inr (fs !! p)
       end.

Definition Stat (env : Env) (fs : FS) (p : list string) : PathError + FileInfo :=
  match resolve env fs p with
  | inl e => inl (mkPathError "stat" p e)
  | inr None => inl (mkPathError "stat" p ENOENT)
  | inr (Some n) => inr (infoOf p n)
  end.

(** [mkdir]: the name must be free and its directory writable; the new
    directory gets [perm] less the umask. *)
Definition Mkdir (env : Env) (p : list string) (perm : N) (fs : FS)
  : option PathError * FS :=
  match resolve env fs p with
  | inl e => (Some (mkPathError "mkdir" p e), fs)
  | inr (Some _) => (Some (mkPathError "mkdir" p EEXIST), fs)
  | inr None =>
      match fs !! parent p with
      | Some (Dir m) =>
          if allows env WriteAccess (parent p) m
          then (None, <[p := Dir (N.ldiff perm (umask env))]> fs)
          else (Some (mkPathError "mkdir" p EACCES), fs)
      | _ => (Some (mkPathError "mkdir" p ENOENT), fs)
      end
  end.

(** The end of [MkdirAll]: [Mkdir], and on its failure the check whether
    the directory is there after all. *)
Definition mkdirChecked (env : Env) (p : list string) (perm : N) (fs : FS)
  : option PathError * FS :=
  match Mkdir env p perm fs with
  | (None, fs') => (None, fs')
  | (Some err, fs') =>
      match Stat env fs' p with
      | inr dir => if IsDir dir then (None, fs') else (Some err, fs')
      | inl _ => (Some err, fs')
      end
  end.

(** [MkdirAll], on the reversed path: a directory that is there is left as
    it is; otherwise the parent is made first and then the directory. *)
Fixpoint MkdirAllRev (env : Env) (rp : list string) (perm : N) (fs : FS)
  : option PathError * FS :=
  let p := rev rp in
  match Stat env fs p with
  | inr dir =>
      if IsDir dir then (None, fs)
      else (Some (mkPathError "mkdir" p ENOTDIR), fs)
  | inl _ =>
      match rp with
      | [] => mkdirChecked env p perm fs
      | _ :: rparent =>
          match MkdirAllRev env rparent perm fs with
          | (Some e, fs') => (Some e, fs')
          | (None, fs') => mkdirChecked env p perm fs'
          end
      end
  end.

Definition MkdirAll (env : Env) (p : list string) (perm : N) (fs : FS)
  : option PathError * FS :=
  MkdirAllRev env (rev p) perm fs.

(** [childName p k] is the name [n] when [k = p ++ [n]]. *)
Fixpoint childName (p k : list string) : option string :=
  match p, k with
  | [], [n] => Some n
  | a :: p', b :: k' => if decide (a = b) then childName p' k' else None
  | _, _ => None
  end.

(** The names in a directory, sorted by name as [os.ReadDir] and
    [filepath.Walk] return them; the directory must be readable. *)
Definition readDirNames (env : Env) (fs : FS) (p : list string)
  : PathError + list string :=
  match resolve env fs p with
  | inl e => inl (mkPathError "open" p e)
  | inr None => inl (mkPathError "open" p ENOENT)
  | inr (Some (File _ _)) => inl (mkPathError "open" p ENOTDIR)
  | inr (Some (Dir m)) =>
      if allows env ReadAccess p m
      then inr (merge_sort String.le (omap (childName p) (map_to_list fs).*1))
      else inl (mkPathError "open" p EACCES)
  end.

Definition entryOf (fs : FS) (p : list string) (name : string) : FileInfo :=
  match fs !! (p ++ [name]) with
  | Some n => infoOf (p ++ [name]) n
  | None => mkFileInfo name false 0
  end.

Definition ReadDir (env : Env) (fs : FS) (p : list string)
  : PathError + list FileInfo :=
  match readDirNames env fs p with
  | inl e => inl e
  | inr names => inr (entryOf fs p <$> names)
  end.

(** [Open(p)]: the node opened for reading. *)
Definition Open (env : Env) (fs : FS) (p : list string) : PathError + Node :=
  match resolve env fs p with
  | inl e => inl (mkPathError "open" p e)
  | inr None => inl (mkPathError "open" p ENOENT)
  | inr (Some n) =>
      if allows env ReadAccess p (nodeMode n) then inr n
      else inl (mkPathError "open" p EACCES)
  end.

(** [OpenFile(p, O_WRONLY|O_CREATE|O_TRUNC, perm)]: an existing file must be
    writable, is truncated and keeps its mode; a missing one is created in a
    writable directory with [perm] less the umask. *)
Definition OpenFileTrunc (env : Env) (p : list string) (perm : N) (fs : FS)
  : option PathError * FS :=
  match resolve env fs p with
  | inl e => (Some (mkPathError "open" p e), fs)
  | inr (Some (Dir _)) => (Some (mkPathError "open" p EISDIR), fs)
  | inr (Some (File m _)) =>
      if allows env WriteAccess p m then (None, <[p := File m ""]> fs)
      else (Some (mkPathError "open" p EACCES), fs)
  | inr None =>
      match fs !! parent p with
      | Some (Dir m) =>
          if allows env WriteAccess (parent p) m
          then (None, <[p := File (N.ldiff perm (umask env)) ""]> fs)
          else (Some (mkPathError "open" p EACCES), fs)
      | _ => (Some (mkPathError "open" p ENOENT), fs)
      end
  end.

(** Reading through the open descriptor of [p]. *)
Definition readData (fs : FS) (p : list string) : PathError + string :=
  match fs !! p with
  | Some (File _ data) => inr data
  | _ => inl (mkPathError "read" p EISDIR)
  end.

(** Writing through the open descriptor of [p]. *)
Definition writeData (p : list string) (data : string) (fs : FS) : FS :=
  match fs !! p with
  | Some (File m _) => <[p := File m data]> fs
  | _ => fs
  end.

Definition ReadFile (env : Env) (fs : FS) (p : list string)
  : PathError + string :=
  match Open env fs p with
  | inl e => inl e
  | inr _ => readData fs p
  end.

Definition WriteFile (env : Env) (p : list string) (data : string) (perm : N)
    (fs : FS) : option PathError * FS :=
  match OpenFileTrunc env p perm fs with
  | (Some e, fs') => (Some e, fs')
  | (None, fs') => (None, writeData p data fs')
  end.

End os.

(** A process that is never denied access and has no umask, and the owner
    of every node as an unprivileged process with umask 022; both with a
    short longest path, to keep the runs below small. *)
Definition openEnv : Env :=
  {| umask := 0; pathMax := 40; allows := fun _ _ _ => true |}.

Definition ownerEnv : Env :=
  {| umask := 18;
     pathMax := 40;
     allows := fun a _ m =>
                 match a with
                 | ReadAccess => N.testbit m 8
                 | WriteAccess => N.testbit m 7
                 | SearchAccess => N.testbit m 6
                 end |}.

(** ** Tree Copier *)

(** [copyFile]: the source is opened and stat'ed, the destination is opened
    with create and truncate, then [io.Copy] reads the source (as it is
    after the truncation) into the destination. *)
Definition copyFile (env : Env) (src dst : list string) (fs : FS)
  : option PathError * FS :=
  match os.Open env fs src with
  | inl e => (Some e, fs)
  | inr srcNode =>
      let srcInfo := os.infoOf src srcNode in
      match os.OpenFileTrunc env dst (Mode srcInfo) fs with
      | (Some e, fs1) => (Some e, fs1)
      | (None, fs1) =>
          match os.readData fs1 src with
          | inl e => (Some e, fs1)
          | inr data => (None, os.writeData dst data fs1)
          end
      end
  end.

(** The result of a call that recurses: [None] when the recursion went
    deeper than the bound given to it. *)
Definition Run := option (option PathError * FS).

(** The loop over the entries of [copyDir]; [rec] is [copyDir] itself. *)
Fixpoint copyEntries (env : Env)
    (rec : list string -> list string -> FS -> Run)
    (src dst : list string) (entries : list FileInfo) (fs : FS) : Run :=
  match entries with
  | [] => Some (None, fs)
  | entry :: rest =>
      let srcPath := src ++ [Name entry] in
      let dstPath := dst ++ [Name entry] in
      if IsDir entry then
        if shouldSkipDir (Name entry) then copyEntries env rec src dst rest fs
        else
          match rec srcPath dstPath fs with
          | None => None
          | Some (Some e, fs') => Some (Some e, fs')
          | Some (None, fs') => copyEntries env rec src dst rest fs'
          end
      else
        if shouldCopyFile (Name entry) then
          match copyFile env srcPath dstPath fs with
          | (Some e, fs') => Some (Some e, fs')
          | (None, fs') => copyEntries env rec src dst rest fs'
          end
        else copyEntries env rec src dst rest fs
  end.

(** [copyDir]; [depth] bounds the nesting of the recursive calls.  Every
    call extends the source path, and the stat of a path longer than the
    system accepts fails, so a bound above that length is never reached. *)
Fixpoint copyDir (env : Env) (depth : nat) (src dst : list string) (fs : FS)
  : Run :=
  match depth with
  | 0 => None
  | S depth' =>
      match os.Stat env fs src with
      | inl e => Some (Some e, fs)
      | inr srcInfo =>
          match os.MkdirAll env dst (Mode srcInfo) fs with
          | (Some e, fs1) => Some (Some e, fs1)
          | (None, fs1) =>
              match os.ReadDir env fs1 src with
              | inl e => Some (Some e, fs1)
              | inr entries =>
                  copyEntries env (copyDir env depth') src dst entries fs1
              end
          end
      end
  end.

(** ** Module Rewriter *)

(** A call of [os.WriteFile], as the rewriter makes it. *)
Record WriteCall := mkWrite { wPath : list string; wData : string; wPerm : N }.

(** The store together with the [os.WriteFile] calls made so far. *)
Record World := mkWorld { files : FS; writes : list WriteCall }.

Definition WalkFunc : Type :=
  list string -> option FileInfo -> option PathError -> World
  -> option PathError * World.

Definition RunW := option (option PathError * World).

Module filepath.

(** The loop of [walk] over the names of a directory; [rec] is [walk].  The
    callbacks here return I/O errors only, never [SkipDir]. *)
Fixpoint walkNames (env : Env)
    (rec : list string -> FileInfo -> World -> RunW)
    (fn : WalkFunc) (p : list string) (names : list string) (w : World) : RunW :=
  match names with
  | [] => Some (None, w)
  | name :: rest =>
      let filename := p ++ [name] in
      match os.Stat env (files w) filename with
      | inl err =>
          match fn filename None (Some err) w with
          | (Some e, w') => Some (Some e, w')
          | (None, w') => walkNames env rec fn p rest w'
          end
      | inr fileInfo =>
          match rec filename fileInfo w with
          | None => None
          | Some (Some e, w') => Some (Some e, w')
          | Some (None, w') => walkNames env rec fn p rest w'
          end
      end
  end.

Fixpoint walk (env : Env) (depth : nat) (fn : WalkFunc) (p : list string)
    (info : FileInfo) (w : World) : RunW :=
  match depth with
  | 0 => None
  | S depth' =>
      if negb (IsDir info) then Some (fn p (Some info) None w)
      else
        match os.readDirNames env (files w) p with
        | inl err => Some (fn p (Some info) (Some err) w)
        | inr names =>
            match fn p (Some info) None w with
            | (Some e1, w1) => Some (Some e1, w1)
            | (None, w1) => walkNames env (walk env depth' fn) fn p names w1
            end
        end
  end.

Definition Walk (env : Env) (depth : nat) (root : list string) (fn : WalkFunc)
    (w : World) : RunW :=
  match os.Stat env (files w) root with
  | inl err => Some (fn root None (Some err) w)
  | inr info => walk env depth fn root info w
  end.

(** Splitting at the separator. *)
Fixpoint splitSlash (s : string) : list string :=
  match s with
  | EmptyString => [""]
  | String c s' =>
      if Ascii.eqb c "/" then "" :: splitSlash s'
      else match splitSlash s' with
           | x :: r => String c x :: r
           | [] => [String c ""]
           end
  end.

Definition cleanStep (acc : list string) (c : string) : list string :=
  if String.eqb c "" || String.eqb c "." then acc
  else if String.eqb c ".." then removelast acc
  else acc ++ [c].

(** [Join(dir, elem)] for a rooted, clean [dir]: the components of [elem]
    are applied to it as [Clean] does. *)
Definition Join (dir : list string) (elem : string) : list string :=
  fold_left cleanStep (splitSlash elem) dir.

End filepath.

(** The function literal passed to [filepath.Walk]. *)
Definition replaceVisit (env : Env) (oldModule newModule : string) : WalkFunc :=
  fun path info err w =>
    match err with
    | Some e => (Some e, w)
    | None =>
        match info with
        | None => (None, w)
        | Some info =>
            if IsDir info then (None, w)
            else
              let name := Name info in
              if negb (HasSuffix name ".go") && negb (String.eqb name "go.mod")
              then (None, w)
              else
                match os.ReadFile env (files w) path with
                | inl e => (Some e, w)
                | inr content =>
                    let newContent := ReplaceAll content oldModule newModule in
                    if negb (String.eqb newContent content) then
                      let (r, fs') :=
                        os.WriteFile env path newContent (Mode info) (files w) in
                      (r, {| files := fs';
                             writes := writes w
                                       ++ [mkWrite path newContent (Mode info)] |})
                    else (None, w)
                end
        end
    end.

Definition replaceModuleInFiles (env : Env) (depth : nat) (dir : list string)
    (oldModule newModule : string) (w : World) : RunW :=
  filepath.Walk env depth dir (replaceVisit env oldModule newModule) w.

(** ** Orchestrator: the copy loop of [main] *)

Record Flags := mkFlags {
  pkg : string;
  output : list string;
  moduleOnly : bool;
  modName : string;
  verbose : bool
}.

Inductive Message :=
| SkippingExternal (dep : string)
| Copying (srcDir dstDir : list string)
| ErrorCopying (relPath : string) (err : PathError).

(** The state of the loop: the store, the counter [copied], what was
    printed, and the calls of [copyDir] made, in order. *)
Record LoopState := mkLoop {
  store : FS;
  copied : nat;
  printed : list Message;
  calls : list (list string * list string)
}.

Definition say (flag : bool) (m : Message) (st : LoopState) : LoopState :=
  if flag then
    {| store := store st; copied := copied st;
       printed := printed st ++ [m]; calls := calls st |}
  else st.

Fixpoint copyPackages (env : Env) (depth : nat) (flags : Flags)
    (modulePath : string) (moduleDir : list string) (deps : list string)
    (st : LoopState) : option LoopState :=
  match deps with
  | [] => Some st
  | dep :: rest =>
      if negb (inModule dep modulePath) then
        copyPackages env depth flags modulePath moduleDir rest
          (say (verbose flags) (SkippingExternal dep) st)
      else
        let relPath := relPathOf dep modulePath in
        let srcDir := filepath.Join moduleDir relPath in
        let dstDir := filepath.Join (output flags) relPath in
        let st := say (verbose flags) (Copying srcDir dstDir) st in
        match copyDir env depth srcDir dstDir (store st) with
        | None => None
        | Some (Some err, fs') =>
            copyPackages env depth flags modulePath moduleDir rest
              {| store := fs'; copied := copied st;
                 printed := printed st ++ [ErrorCopying relPath err];
                 calls := calls st ++ [(srcDir, dstDir)] |}
        | Some (None, fs') =>
            copyPackages env depth flags modulePath moduleDir rest
              {| store := fs'; copied := S (copied st);
                 printed := printed st;
                 calls := calls st ++ [(srcDir, dstDir)] |}
        end
  end.

(** ** Notions used to state the properties *)

Definition ends_with (name suffix : string) : Prop :=
  exists r, name = r +:+ suffix.


(** The names the rewriter processes. *)
Definition rewritable (name : string) : Prop :=
  ends_with name ".go" \/ name = "go.mod".

(** What the rewriter makes of the node at [p]. *)
Definition rewritten (old new : string) (p : list string) (n : Node) : Node :=
  match n with
  | File m content =>
      if HasSuffix (os.baseName p) ".go" || String.eqb (os.baseName p) "go.mod"
      then File m (ReplaceAll content old new)
      else n
  | Dir _ => n
  end.

(** A write of the rewriter that belongs to a file below [p] whose content
    the replacement changes. *)
Definition changedBy (old new : string) (fs : FS) (p : list string)
    (c : WriteCall) : Prop :=
  p `prefix_of` wPath c
  /\ exists m content,
       fs !! wPath c = Some (File m content)
       /\ rewritten old new (wPath c) (File m content) = File m (wData c)
       /\ wData c <> content
       /\ wPerm c = m.

(** Every node other than the root lies in a directory. *)
Definition wellFormed (fs : FS) : bool :=
  forallb (fun k => match k with
                    | [] => true
                    | _ => match fs !! os.parent k with
                           | Some (Dir _) => true
                           | _ => false
                           end
                    end) (map_to_list fs).*1.

(** A bound on the depth of the recursion of a walk: more than the length
    of every path. *)
Definition depthBound (fs : FS) : nat :=
  S (max_list (length <$> (map_to_list fs).*1)).

(** Nothing is removed: a directory stays the directory it was, a file
    stays a file with its mode (its content may change). *)
Definition grows (fs g : FS) : Prop :=
  forall q,
    match fs !! q with
    | Some (Dir m) => g !! q = Some (Dir m)
    | Some (File m _) => exists d, g !! q = Some (File m d)
    | None => True
    end.

(** One path lies on the way to the other. *)
Definition nested (p q : list string) : Prop :=
  p `prefix_of` q \/ q `prefix_of` p.

(** The directory at [d] is there and may be searched. *)
Definition searchable (env : Env) (fs : FS) (d : list string) : Prop :=
  exists m, fs !! d = Some (Dir m) /\ allows env SearchAccess d m = true.

(** Every directory on the way to [p] is there and may be searched. *)
Definition reach (env : Env) (fs : FS) (p : list string) : Prop :=
  forall d c, d ++ [c] `prefix_of` p -> searchable env fs d.

(** The system resolves the path [p]. *)
Definition resolvable (env : Env) (fs : FS) (p : list string) : Prop :=
  os.pathLen p <= pathMax env /\ reach env fs p.

(** The store holds under [dst] the copy of what [copyDir] selects under
    [src], down to [depth] levels, and the process may read the source as
    [copyDir] does. *)
Fixpoint mirrored (env : Env) (depth : nat) (src dst : list string) (fs : FS)
  : Prop :=
  match depth with
  | 0 => False
  | S depth' =>
      resolvable env fs src
      /\ (exists m, fs !! src = Some (Dir m) /\ allows env ReadAccess src m = true)
      /\ resolvable env fs dst
      /\ (exists m, fs !! dst = Some (Dir m))
      /\ forall name,
           match fs !! (src ++ [name]) with
           | Some (Dir _) =>
               shouldSkipDir name = false ->
               mirrored env depth' (src ++ [name]) (dst ++ [name]) fs
           | Some (File m data) =>
               shouldCopyFile name = true ->
               resolvable env fs (src ++ [name])
               /\ allows env ReadAccess (src ++ [name]) m = true
               /\ resolvable env fs (dst ++ [name])
               /\ exists m', fs !! (dst ++ [name]) = Some (File m' data)
           | None => True
           end
  end.

(** What one entry of the source contributes to [mirrored]. *)
Definition entryMirrored (env : Env) (depth : nat) (src dst : list string)
    (fs1 g : FS) (name : string) : Prop :=
  match fs1 !! (src ++ [name]) with
  | Some (Dir _) =>
      shouldSkipDir name = false ->
      mirrored env depth (src ++ [name]) (dst ++ [name]) g
  | Some (File m data) =>
      shouldCopyFile name = true ->
      resolvable env g (src ++ [name])
      /\ allows env ReadAccess (src ++ [name]) m = true
      /\ resolvable env g (dst ++ [name])
      /\ exists m', g !! (dst ++ [name]) = Some (File m' data)
  | None => True
  end.

(** Every node with a name lies in a directory. *)
Definition parentsAreDirs (fs : FS) : Prop :=
  forall p a, is_Some (fs !! (p ++ [a])) -> exists m, fs !! p = Some (Dir m).

(** The two stores have the same nodes, of the same kind and mode. *)
Definition sameMeta (fs g : FS) : Prop :=
  forall q, os.infoOf q <$> g !! q = os.infoOf q <$> fs !! q.

(** The effect of a walk from [p] with result [r]: a node below [p] is
    rewritten or, when the walk failed, as before; all others are as
    before; every write is one of a changed file, and after a walk without
    error every changed file was written. *)
Definition attempted (old new : string) (p : list string)
    (r : option PathError) (w w' : World) : Prop :=
  (forall q, p `prefix_of` q ->
             files w' !! q = rewritten old new q <$> files w !! q
             \/ (r <> None /\ files w' !! q = files w !! q))
  /\ (forall q, ~ p `prefix_of` q -> files w' !! q = files w !! q)
  /\ exists ws, writes w' = writes w ++ ws
                /\ (forall c, c ∈ ws -> changedBy old new (files w) p c)
                /\ (r = None ->
                    forall c, changedBy old new (files w) p c -> c ∈ ws).

Definition attemptedNames (old new : string) (p : list string)
    (names : list string) (r : option PathError) (w w' : World) : Prop :=
  (forall q n, n ∈ names -> p ++ [n] `prefix_of` q ->
               files w' !! q = rewritten old new q <$> files w !! q
               \/ (r <> None /\ files w' !! q = files w !! q))
  /\ (forall q, (forall n, n ∈ names -> ~ p ++ [n] `prefix_of` q) ->
                files w' !! q = files w !! q)
  /\ exists ws, writes w' = writes w ++ ws
                /\ (forall c, c ∈ ws ->
                              exists n, n ∈ names
                                        /\ changedBy old new (files w) (p ++ [n]) c)
                /\ (r = None ->
                    forall c n, n ∈ names ->
                                changedBy old new (files w) (p ++ [n]) c ->
                                c ∈ ws).

(** The number of failed packages reported. *)
Definition isError (m : Message) : bool :=
  match m with ErrorCopying _ _ => true | _ => false end.

Definition errorsPrinted (l : list Message) : nat :=
  length (List.filter isError l).



(** ** Deciding equalities of results by evaluation *)

#[global] Instance Node_eq_dec : EqDecision Node.
Proof. solve_decision. Defined.

#[global] Instance Errno_eq_dec : EqDecision Errno.
Proof. solve_decision. Defined.

#[global] Instance PathError_eq_dec : EqDecision PathError.
Proof. solve_decision. Defined.

#[global] Instance FileInfo_eq_dec : EqDecision FileInfo.
Proof. solve_decision. Defined.

#[global] Instance WriteCall_eq_dec : EqDecision WriteCall.
Proof. solve_decision. Defined.

#[global] Instance World_eq_dec : EqDecision World.
Proof. solve_decision. Defined.

#[global] Instance Message_eq_dec : EqDecision Message.
Proof. solve_decision. Defined.

#[global] Instance LoopState_eq_dec : EqDecision LoopState.
Proof. solve_decision. Defined.

(** Proves a decidable closed proposition by evaluating its decision. *)
Ltac by_evaluation := apply (bool_decide_unpack _); vm_compute; exact I.

(** ** Concrete stores, for the runs at the end *)

(** A module with a package, a test file, a note and a vendored directory. *)
Definition demoStore : FS :=
  list_to_map
    [([], Dir 493%N);
     (["m"], Dir 488%N);
     (["m"; "go.mod"], File 420%N "module example.com/m");
     (["m"; "main.go"], File 420%N "import example.com/m/sub");
     (["m"; "main_test.go"], File 420%N "package main");
     (["m"; "notes.txt"], File 420%N "see example.com/m");
     (["m"; "sub"], Dir 448%N);
     (["m"; "sub"; "a.go"], File 384%N "package sub");
     (["m"; "vendor"], Dir 448%N);
     (["m"; "vendor"; "v.go"], File 384%N "package v")].

Definition demoCopied : FS :=
  match copyDir ownerEnv 3 ["m"] ["out"; "x"] demoStore with
  | Some (_, g) => g
  | None => ∅
  end.

(** The same store with a directory where [main.go] is to be copied. *)
Definition demoBlocked : FS :=
  <[ ["out"; "x"; "main.go"] := Dir 448%N ]>
    (<[ ["out"; "x"] := Dir 448%N ]> (<[ ["out"] := Dir 493%N ]> demoStore)).

Definition demoPartial : FS :=
  <[ ["out"; "x"; "go.mod"] := File 420%N "module example.com/m" ]> demoBlocked.

Definition demoFlags : Flags := mkFlags "./sub" ["out"] true "" false.

Definition demoRewritten : World :=
  match replaceModuleInFiles ownerEnv 4 ["m"] "example.com/m" "example.org/n"
          (mkWorld demoStore []) with
  | Some (_, w) => w
  | None => mkWorld ∅ []
  end.







(** A source directory of mode 0777 with a file that cannot be read (mode
    0200). *)
Definition openDirStore : FS :=
  list_to_map
    [([], Dir 493%N);
     (["src"], Dir 511%N);
     (["src"; "a.go"], File 420%N "package a");
     (["src"; "b.go"], File 128%N "package b")].

Definition openDirPartial : FS :=
  <[ ["dst"; "a.go"] := File 420%N "package a" ]>
    (<[ ["dst"] := Dir 493%N ]> openDirStore).

(** A package that is to be copied into a directory of its own. *)
Definition selfStore : FS :=
  list_to_map
    [([], Dir 493%N);
     (["a"], Dir 493%N);
     (["a"; "x.go"], File 420%N "package a")].

(** The directory of [TestCopyFile]. *)
Definition testCopyFileStore : FS :=
  {[ [] := Dir 493%N; ["source.go"] := File 420%N "package main" ]}.

(** The directory of [TestCopyDir]. *)
Definition testCopyDirStore : FS :=
  list_to_map
    [([], Dir 493%N);
     (["tmp"], Dir 493%N);
     (["tmp"; "src"], Dir 493%N);
     (["tmp"; "src"; "main.go"], File 420%N "package main");
     (["tmp"; "src"; "main_test.go"], File 420%N "package main");
     (["tmp"; "src"; "notes.txt"], File 420%N "notes")].

(** The directory of [TestReplaceModuleInFiles]. *)
Definition testReplaceStore : FS :=
  list_to_map
    [([], Dir 493%N);
     (["tmp"], Dir 493%N);
     (["tmp"; "go.mod"],
      File 420%N "module github.com/openai/openai-go/v3");
     (["tmp"; "main.go"],
      File 420%N "import github.com/openai/openai-go/v3/responses");
     (["tmp"; "notes.txt"],
      File 420%N "Contains github.com/openai/openai-go/v3 reference")].

(** * Properties *)

(** ** Facts about Go strings *)

Section StringFacts.

Implicit Types s t u v : string.


Lemma sapp_cons a s t : String a s +:+ t = String a (s +:+ t).
Proof. reflexivity. Qed.

Lemma sapp_nil_r s : s +:+ "" = s.
Proof. induction s as [|a s IH]; [done|]. by rewrite sapp_cons, IH. Qed.

Lemma sapp_assoc s t u : (s +:+ t) +:+ u = s +:+ (t +:+ u).
Proof. induction s as [|a s IH]; [done|]. by rewrite !sapp_cons, IH. Qed.

Lemma slength_app s t :
  String.length (s +:+ t) = String.length s + String.length t.
Proof. induction s as [|a s IH]; [done|]. rewrite sapp_cons. simpl. by rewrite IH. Qed.

Lemma length_zero s : String.length s = 0 -> s = "".
Proof. by destruct s. Qed.

Lemma upto_from n s : upto n s +:+ from n s = s.
Proof.
  revert s. induction n as [|n IH]; intros [|a s]; simpl; try done.
  by rewrite sapp_cons, IH.
Qed.

Lemma upto_app s t : upto (String.length s) (s +:+ t) = s.
Proof.
  induction s as [|a s IH].
  - by destruct t.
  - rewrite sapp_cons. simpl. by rewrite IH.
Qed.

Lemma from_app s t : from (String.length s) (s +:+ t) = t.
Proof. induction s as [|a s IH]; [done|]. by rewrite sapp_cons. Qed.


Lemma length_upto n s : String.length (upto n s) = Nat.min n (String.length s).
Proof.
  revert s. induction n as [|n IH]; intros [|a s]; simpl; try done.
  by rewrite IH.
Qed.

Lemma length_from n s : String.length (from n s) = String.length s - n.
Proof.
  revert s. induction n as [|n IH]; intros [|a s]; simpl; try done.
Qed.

Lemma from_all n s : String.length s <= n -> from n s = "".
Proof.
  intros H. apply length_zero. rewrite length_from. lia.
Qed.

Lemma sapp_inv_length s1 s2 t1 t2 :
  s1 +:+ s2 = t1 +:+ t2 -> String.length s1 = String.length t1 ->
  s1 = t1 /\ s2 = t2.
Proof.
  revert t1. induction s1 as [|a s1 IH]; intros [|b t1]; simpl; try done.
  rewrite !sapp_cons. intros [= -> H] [= Hl]. destruct (IH _ H Hl) as [-> ->]. done.
Qed.

Lemma sapp_inv_length_r s1 s2 t1 t2 :
  s1 +:+ s2 = t1 +:+ t2 -> String.length s2 = String.length t2 ->
  s1 = t1 /\ s2 = t2.
Proof.
  intros H Hl. apply sapp_inv_length; [done|].
  apply (f_equal String.length) in H. rewrite !slength_app in H. lia.
Qed.

(** [HasPrefix] and [HasSuffix] decide the literal prefix and suffix
    relations. *)
Lemma HasPrefix_iff s p : HasPrefix s p = true <-> exists r, s = p +:+ r.
Proof.
  unfold HasPrefix. rewrite andb_true_iff, Nat.leb_le, String.eqb_eq. split.
  - intros [_ H]. exists (from (String.length p) s).
    rewrite <- H at 1. apply eq_sym, upto_from.
  - intros [r ->]. rewrite slength_app, upto_app. split; [lia|done].
Qed.

Lemma HasSuffix_iff s p : HasSuffix s p = true <-> exists r, s = r +:+ p.
Proof.
  unfold HasSuffix. rewrite andb_true_iff, Nat.leb_le, String.eqb_eq. split.
  - intros [_ H]. exists (upto (String.length s - String.length p) s).
    rewrite <- H at 2. apply eq_sym, upto_from.
  - intros [r ->]. rewrite slength_app.
    replace (String.length r + String.length p - String.length p)
      with (String.length r) by lia.
    rewrite from_app. split; [lia|done].
Qed.

Lemma TrimPrefix_app p r : TrimPrefix (p +:+ r) p = r.
Proof.
  unfold TrimPrefix.
  assert (HasPrefix (p +:+ r) p = true) as -> by (apply HasPrefix_iff; eauto).
  apply from_app.
Qed.


Lemma HasPrefix_nil s : HasPrefix s "" = true.
Proof. apply HasPrefix_iff. by exists s. Qed.







(** Without an occurrence [ReplaceAll] returns its argument. *)
Lemma ReplaceAll_absent s old new : Index s old = None -> ReplaceAll s old new = s.
Proof.
  intros Hi. unfold ReplaceAll. destruct (old =? new)%string; [done|].
  unfold Count. destruct (String.eqb_spec old "") as [->|Hold].
  { destruct s; simpl in Hi; by rewrite ?HasPrefix_nil in Hi. }
  destruct (String.length s); simpl; [done|]. by rewrite Hi.
Qed.

(** With an empty pattern the replacement is put before every rune and at
    the end; every rune is at least one byte wide, which bounds the loops. *)
Lemma DecodeRuneWidth_bounds a s :
  1 <= utf8.DecodeRuneWidth (String a s) <= 4.
Proof.
  unfold utf8.DecodeRuneWidth. simpl String.length.
  change (Nat.ltb (S (String.length s)) 1) with false. cbv iota.
  repeat case_match; lia.
Qed.

Lemma runeCountLoop_enough f1 f2 s :
  String.length s <= f1 -> String.length s <= f2 ->
  runeCountLoop f1 s = runeCountLoop f2 s.
Proof.
  revert f2 s. induction f1 as [|f1 IH]; intros f2 s H1 H2.
  - destruct s; [|simpl in H1; lia]. by destruct f2.
  - destruct s as [|a s]; [by destruct f2|].
    destruct f2 as [|f2]; [simpl in H2; lia|].
    cbn [runeCountLoop]. f_equal.
    pose proof (DecodeRuneWidth_bounds a s) as Hw.
    apply IH; rewrite length_from; simpl in *; lia.
Qed.

Example ReplaceAll_empty_old :
  ReplaceAll (String "a" (String (ascii_of_nat 195) (String (ascii_of_nat 169) "b")))
    "" "-"
  = String "-" (String "a" (String "-" (String (ascii_of_nat 195)
      (String (ascii_of_nat 169) "-b-")))).
Proof. by vm_compute. Qed.

End StringFacts.

(** ** Path Classifier *)

(** C4: [shouldSkipDir] holds exactly of the names that equal or end with a
    block-list entry; ["foo_test"] is skipped, ["utils"], ["src"],
    ["internal"], ["protest"] and the empty name are not. *)
Theorem shouldSkipDir_spec :
  (forall name,
     shouldSkipDir name = true <->
     exists s, In s ["testdata"; "vendor"; ".git"; "_test"]
               /\ (name = s \/ ends_with name s))
  /\ shouldSkipDir "foo_test" = true
  /\ shouldSkipDir "utils" = false
  /\ shouldSkipDir "src" = false
  /\ shouldSkipDir "internal" = false
  /\ shouldSkipDir "protest" = false
  /\ shouldSkipDir "" = false.
Proof.
  split; [|by vm_compute].
  intros name. unfold shouldSkipDir. rewrite existsb_exists.
  split; intros (s & Hin & H); exists s; split; try done.
  - apply orb_true_iff in H as [H|H].
    + left. by apply String.eqb_eq.
    + right. by apply HasSuffix_iff.
  - apply orb_true_iff. destruct H as [H|H].
    + left. by apply String.eqb_eq.
    + right. by apply HasSuffix_iff.
Qed.

(** C5: [shouldCopyFile] holds exactly of the names that end in [.go] but
    not in [_test.go], and of the four allow-listed names. *)
Theorem shouldCopyFile_spec (name : string) :
  shouldCopyFile name = true <->
  (ends_with name ".go" /\ ~ ends_with name "_test.go")
  \/ In name ["go.mod"; "go.sum"; "LICENSE"; "README.md"].
Proof.
  unfold shouldCopyFile, ends_with. rewrite <- !HasSuffix_iff.
  destruct (HasSuffix name ".go") eqn:Hgo.
  - destruct (HasSuffix name "_test.go") eqn:Ht.
    + split; [done|]. intros [[_ H]|H]; [by destruct H|].
      simpl in H. destruct H as [<-|[<-|[<-|[<-|[]]]]]; by vm_compute in Hgo.
    + split; [|done]. intros _. left. split; [done|]. congruence.
  - rewrite existsb_exists. split.
    + intros (f & Hin & ->%String.eqb_eq). by right.
    + intros [[H _]|H]; [done|]. exists name. split; [done|]. apply String.eqb_refl.
Qed.

(** ** Dependency Selector *)

(** C3: a package is in-module exactly when the module identifier is a
    literal prefix of it (so ["github.com/x/foobar"] is in module
    ["github.com/x/foo"]); its relative path is the rest after the prefix
    without one leading ["/"], and the module itself has the empty path. *)
Theorem dependency_selector_spec :
  (forall p m, inModule p m = true <-> exists r, p = m +:+ r)
  /\ inModule "github.com/x/foobar" "github.com/x/foo" = true
  /\ (forall m r,
        relPathOf (m +:+ r) m =
        match r with
        | String "/" r' => r'
        | _ => r
        end)
  /\ (forall m, relPathOf m m = "").
Proof.
  split; [|split; [by vm_compute|split]].
  - intros p m. apply HasPrefix_iff.
  - intros m r. unfold relPathOf. rewrite TrimPrefix_app.
    destruct r as [|a r]; [done|].
    unfold TrimPrefix, HasPrefix. simpl.
    destruct r; simpl; destruct (Ascii.eqb_spec a "/") as [->|Hne]; simpl; try done.
    all: destruct a as [[] [] [] [] [] [] [] []]; try done.
  - intros m. unfold relPathOf.
    rewrite <- (sapp_nil_r m) at 1. by rewrite TrimPrefix_app.
Qed.



(** ** Facts about the file system *)

Section FsFacts.

Variable env : Env.

Implicit Types (fs g h : FS) (p q src dst : list string).

Lemma grows_refl fs : grows fs fs.
Proof. intros q. destruct (fs !! q) as [[]|]; eauto. Qed.

Lemma grows_trans fs g h : grows fs g -> grows g h -> grows fs h.
Proof.
  intros H1 H2 q. specialize (H1 q). specialize (H2 q).
  destruct (fs !! q) as [[m d|m]|]; [|by rewrite H1 in H2|done].
  destruct H1 as [d' H1]. by rewrite H1 in H2.
Qed.

Lemma grows_insert_new fs p n : fs !! p = None -> grows fs (<[p := n]> fs).
Proof.
  intros Hp q. destruct (decide (p = q)) as [->|Hne].
  - by rewrite Hp.
  - rewrite lookup_insert_ne by done. destruct (fs !! q) as [[]|]; eauto.
Qed.

Lemma grows_insert_file fs p m d d' :
  fs !! p = Some (File m d) -> grows fs (<[p := File m d']> fs).
Proof.
  intros Hp q. destruct (decide (p = q)) as [->|Hne].
  - rewrite Hp, lookup_insert_eq. eauto.
  - rewrite lookup_insert_ne by done. destruct (fs !! q) as [[]|]; eauto.
Qed.

Lemma grows_dir fs g p m :
  grows fs g -> fs !! p = Some (Dir m) -> g !! p = Some (Dir m).
Proof. intros H Hp. specialize (H p). by rewrite Hp in H. Qed.

Lemma grows_file fs g p m d :
  grows fs g -> fs !! p = Some (File m d) -> exists d', g !! p = Some (File m d').
Proof. intros H Hp. specialize (H p). by rewrite Hp in H. Qed.

Lemma parent_snoc p a : os.parent (p ++ [a]) = p.
Proof. apply removelast_last. Qed.

Lemma baseName_snoc p a : os.baseName (p ++ [a]) = a.
Proof. apply last_last. Qed.

Lemma pathLen_snoc p a :
  os.pathLen (p ++ [a]) = os.pathLen p + S (String.length a).
Proof. induction p as [|c p IH]; simpl in *; lia. Qed.

Lemma prefix_snoc_inv q p a :
  q `prefix_of` p ++ [a] -> q `prefix_of` p \/ q = p ++ [a].
Proof.
  intros [k Hk]. destruct k as [|x k _] using rev_ind.
  - right. by rewrite app_nil_r in Hk.
  - left. rewrite (assoc_L (++)) in Hk. apply app_inj_tail in Hk as [-> _].
    by apply prefix_app_r.
Qed.

Lemma snoc_nested_inv src dst a b :
  nested (src ++ [a]) (dst ++ [b]) -> nested src dst.
Proof.
  intros [H|H]; apply prefix_app_l in H; apply prefix_snoc_inv in H as [H| ->].
  - by left.
  - right. by apply prefix_app_r.
  - by right.
  - left. by apply prefix_app_r.
Qed.

Lemma snoc_prefix_same dst a b q :
  dst ++ [a] `prefix_of` q -> dst ++ [b] `prefix_of` q -> a = b.
Proof.
  intros Ha Hb.
  assert (dst ++ [a] = dst ++ [b]) as E.
  { destruct (prefix_weak_total _ _ _ Ha Hb) as [H|H].
    - apply prefix_length_eq; [done|]. rewrite !length_app. simpl. lia.
    - symmetry. apply prefix_length_eq; [done|]. rewrite !length_app. simpl. lia. }
  by apply app_inj_tail in E as [_ ->].
Qed.

Lemma not_nested_snoc src dst a b :
  ~ nested src dst -> ~ nested (src ++ [a]) (dst ++ [b]).
Proof. intros H H'. apply H. by eapply snoc_nested_inv. Qed.

Lemma not_nested_ne src dst : ~ nested src dst -> src <> dst.
Proof. intros H ->. apply H. by left. Qed.

Lemma not_nested_below src dst a q :
  ~ nested src dst -> src `prefix_of` q -> ~ dst ++ [a] `prefix_of` q.
Proof.
  intros Hn Hs Hd. apply Hn.
  destruct (prefix_weak_total _ _ _ Hs Hd) as [H|H].
  - apply prefix_snoc_inv in H as [H| ->]; [by left|]. right. by apply prefix_app_r.
  - right. by eapply prefix_app_l.
Qed.

(** What lies below the source is off the way to a child of the
    destination, and so is what lies below another child. *)
Lemma below_src_not_nested src dst b q :
  ~ nested src dst -> src `prefix_of` q -> ~ nested q (dst ++ [b]).
Proof.
  intros Hn Hs [H|H].
  - apply Hn. assert (src `prefix_of` dst ++ [b]) as H' by (by etrans).
    apply prefix_snoc_inv in H' as [H'| ->]; [by left|]. right.
    by apply prefix_app_r.
  - by eapply not_nested_below.
Qed.

Lemma below_child_not_nested dst a b q :
  a <> b -> dst ++ [a] `prefix_of` q -> ~ nested q (dst ++ [b]).
Proof.
  intros Hab Ha [H|H]; apply Hab.
  - eapply (snoc_prefix_same dst a b (dst ++ [b])); [by etrans|done].
  - by eapply snoc_prefix_same.
Qed.

(** *** Path resolution *)

Lemma prefix_step (pre : list string) c rest d :
  pre `prefix_of` d -> d `prefix_of` pre ++ c :: rest -> d <> pre ->
  pre ++ [c] `prefix_of` d.
Proof.
  intros [k ->] H Hne. apply prefix_app_inv in H.
  destruct k as [|x k]; [by rewrite app_nil_r in Hne|].
  apply prefix_cons_inv_1 in H as ->. exists k. by rewrite <- (assoc_L (++)).
Qed.

Lemma ancestorsOk_None fs pre rest :
  os.ancestorsOk env fs pre rest = None <->
  forall d c, pre `prefix_of` d -> d ++ [c] `prefix_of` pre ++ rest ->
              searchable env fs d.
Proof.
  revert pre. induction rest as [|c0 rest IH]; intros pre; simpl.
  - split; [|done]. intros _ d c Hd Hc. rewrite app_nil_r in Hc.
    apply prefix_length in Hd, Hc. rewrite length_app in Hc. simpl in Hc. lia.
  - split.
    + intros H d c Hd Hc.
      destruct (fs !! pre) as [[m x|m]|] eqn:Hpre; try done.
      destruct (allows env SearchAccess pre m) eqn:Hs; [|done].
      destruct (decide (d = pre)) as [->|Hne]; [by exists m|].
      apply (proj1 (IH (pre ++ [c0])) H d c).
      * eapply prefix_step; [done| |done]. by eapply prefix_app_l.
      * by rewrite <- (assoc_L (++)).
    + intros H.
      destruct (H pre c0) as (m & -> & ->); [done|by apply prefix_app, prefix_cons, prefix_nil|].
      apply IH. intros d c Hd Hc. apply (H d c).
      * by eapply prefix_app_l.
      * by rewrite <- (assoc_L (++)) in Hc.
Qed.

Lemma resolve_inr fs p o :
  os.resolve env fs p = inr o <-> resolvable env fs p /\ o = fs !! p.
Proof.
  unfold os.resolve, resolvable, reach.
  destruct (Nat.ltb_spec (pathMax env) (os.pathLen p)) as [Hl|Hl].
  { split; [done|]. intros [[? _] _]. lia. }
  destruct (os.ancestorsOk env fs [] p) as [e|] eqn:Ha.
  - split; [done|]. intros [[_ Hr] _].
    assert (os.ancestorsOk env fs [] p = None) as Hn; [|congruence].
    apply ancestorsOk_None. intros d c _ Hc. by apply (Hr d c).
  - split.
    + intros [= <-]. split; [|done]. split; [done|].
      intros d c Hc. eapply (proj1 (ancestorsOk_None fs [] p) Ha d c);
        [apply prefix_nil|done].
    + by intros [_ ->].
Qed.

Lemma reach_snoc fs p a :
  reach env fs (p ++ [a]) <-> reach env fs p /\ searchable env fs p.
Proof.
  unfold reach. split.
  - intros H. split; [|by apply (H p a)].
    intros d c Hc. apply (H d c). by apply prefix_app_r.
  - intros [H Hp] d c Hc. apply prefix_snoc_inv in Hc as [Hc|Hc].
    + by apply (H d c).
    + by apply app_inj_tail in Hc as [-> _].
Qed.

Lemma reach_prefix fs p q : reach env fs p -> q `prefix_of` p -> reach env fs q.
Proof. intros H Hq d c Hc. apply (H d c). by etrans. Qed.

Lemma searchable_grows fs g (d : list string) : grows fs g -> searchable env fs d -> searchable env g d.
Proof. intros Hg (m & Hm & Hs). exists m. split; [by eapply grows_dir|done]. Qed.

Lemma reach_grows fs g p : grows fs g -> reach env fs p -> reach env g p.
Proof. intros Hg H d c Hc. eapply searchable_grows; [done|]. by apply (H d c). Qed.

Lemma resolvable_grows fs g p :
  grows fs g -> resolvable env fs p -> resolvable env g p.
Proof. intros Hg [Hl Hr]. split; [done|]. by eapply reach_grows. Qed.

Lemma resolvable_snoc fs p a :
  resolvable env fs (p ++ [a]) ->
  resolvable env fs p /\ searchable env fs p.
Proof.
  intros [Hl [Hr Hs]%reach_snoc]. rewrite pathLen_snoc in Hl.
  split; [|done]. split; [lia|done].
Qed.

(** Resolution looks at the way to the path only. *)
Lemma ancestorsOk_ext fs g pre rest :
  (forall d c, pre `prefix_of` d -> d ++ [c] `prefix_of` pre ++ rest ->
               fs !! d = g !! d) ->
  os.ancestorsOk env fs pre rest = os.ancestorsOk env g pre rest.
Proof.
  revert pre. induction rest as [|c0 rest IH]; intros pre H; simpl; [done|].
  rewrite <- (H pre c0) by (done || by apply prefix_app, prefix_cons, prefix_nil).
  destruct (fs !! pre) as [[|m]|]; try done.
  destruct (allows env SearchAccess pre m); [|done].
  apply IH. intros d c Hd Hc. apply (H d c).
  - by eapply prefix_app_l.
  - by rewrite <- (assoc_L (++)) in Hc.
Qed.

Lemma resolve_ext fs g p :
  (forall d, d `prefix_of` p -> fs !! d = g !! d) ->
  os.resolve env fs p = os.resolve env g p.
Proof.
  intros H. unfold os.resolve.
  rewrite (ancestorsOk_ext fs g [] p), (H p) by (done || intros d c _ Hc; apply H; by eapply prefix_app_l).
  done.
Qed.

Lemma resolvable_ext fs g p :
  (forall d c, d ++ [c] `prefix_of` p -> g !! d = fs !! d) ->
  resolvable env fs p -> resolvable env g p.
Proof.
  intros H [Hl Hr]. split; [done|]. intros d c Hc.
  destruct (Hr d c Hc) as (m & Hm & Hs). exists m. by rewrite (H d c).
Qed.

Lemma resolvable_insert fs p n q :
  ~ (exists c, p ++ [c] `prefix_of` q) ->
  resolvable env fs q -> resolvable env (<[p := n]> fs) q.
Proof.
  intros Hp. apply resolvable_ext. intros d c Hc.
  rewrite lookup_insert_ne; [done|]. intros ->. apply Hp. eauto.
Qed.

(** *** Stat *)

Lemma Stat_inr fs p info :
  os.Stat env fs p = inr info <->
  resolvable env fs p /\ exists n, fs !! p = Some n /\ info = os.infoOf p n.
Proof.
  unfold os.Stat. destruct (os.resolve env fs p) as [e|o] eqn:Hr.
  - split; [done|]. intros [Hres _].
    assert (os.resolve env fs p = inr (fs !! p)) by (by apply resolve_inr).
    congruence.
  - apply resolve_inr in Hr as [Hres ->]. destruct (fs !! p) as [n|].
    + split; [intros [= <-]; eauto|]. by intros [_ (n' & [= <-] & ->)].
    + split; [done|]. by intros [_ (n' & ? & _)].
Qed.


(** The stat of a path longer than the system accepts fails. *)
Lemma Stat_too_long fs p :
  pathMax env < os.pathLen p ->
  os.Stat env fs p = inl (mkPathError "stat" p ENAMETOOLONG).
Proof.
  intros H. unfold os.Stat, os.resolve.
  by destruct (Nat.ltb_spec (pathMax env) (os.pathLen p)); [|lia].
Qed.

(** *** Directory creation *)

Lemma Mkdir_spec p perm fs r g :
  os.Mkdir env p perm fs = (r, g) ->
  (r <> None /\ g = fs)
  \/ (r = None /\ fs !! p = None /\ resolvable env fs p
      /\ g = <[p := Dir (N.ldiff perm (umask env))]> fs).
Proof.
  unfold os.Mkdir. destruct (os.resolve env fs p) as [e|[n|]] eqn:Hr.
  - intros [= <- <-]. by left.
  - intros [= <- <-]. by left.
  - apply resolve_inr in Hr as [Hres Hp].
    destruct (fs !! os.parent p) as [[|m]|]; try (intros [= <- <-]; by left).
    destruct (allows env WriteAccess (os.parent p) m); intros [= <- <-];
      [right|by left].
    done.
Qed.

Lemma mkdirChecked_spec p perm fs r g :
  os.mkdirChecked env p perm fs = (r, g) ->
  (g = fs \/ (fs !! p = None /\ g = <[p := Dir (N.ldiff perm (umask env))]> fs))
  /\ (r = None ->
      resolvable env g p
      /\ exists m, g !! p = Some (Dir m)
                   /\ (fs !! p = None -> m = N.ldiff perm (umask env))).
Proof.
  unfold os.mkdirChecked.
  destruct (os.Mkdir env p perm fs) as [[err|] fs'] eqn:Hmk;
    apply Mkdir_spec in Hmk as [[Hr ->]|(Hr & Hp & Hres & ->)]; try done.
  - destruct (os.Stat env fs p) as [e|dir] eqn:Hst.
    { intros [= <- <-]. split; [by left|done]. }
    apply Stat_inr in Hst as (Hres & n & Hn & ->).
    destruct n as [m d|m]; simpl; intros [= <- <-]; (split; [by left|]); [done|].
    intros _. split; [done|]. exists m. split; [done|]. by rewrite Hn.
  - intros [= <- <-]. split; [by right|]. intros _. split.
    + apply resolvable_insert; [|done]. intros [c Hc].
      by apply prefix_snoc_not in Hc.
    + eexists. by rewrite lookup_insert_eq.
Qed.

Lemma MkdirAllRev_spec rp perm fs r g :
  os.MkdirAllRev env rp perm fs = (r, g) ->
  (forall q, fs !! q <> None -> g !! q = fs !! q)
  /\ (forall q, ~ q `prefix_of` rev rp -> g !! q = fs !! q)
  /\ (r = None ->
      resolvable env g (rev rp)
      /\ exists m, g !! rev rp = Some (Dir m)
                   /\ (fs !! rev rp = None -> m = N.ldiff perm (umask env))).
Proof.
  assert (forall p fs0 r0 g0,
            os.mkdirChecked env p perm fs0 = (r0, g0) ->
            (forall q, fs0 !! q <> None -> g0 !! q = fs0 !! q)
            /\ (forall q, q <> p -> g0 !! q = fs0 !! q)) as Hstep.
  { intros p fs0 r0 g0 [[->|[Hp ->]] _]%mkdirChecked_spec; [done|]. split.
    - intros q Hq. rewrite lookup_insert_ne; [done|]. by intros ->.
    - intros q Hq. by rewrite lookup_insert_ne. }
  revert r g. induction rp as [|a rp IH]; intros r g.
  - simpl. destruct (os.Stat env fs []) as [e|dir] eqn:Hst.
    + intros H. pose proof (Hstep _ _ _ _ H) as [H1 H2].
      apply mkdirChecked_spec in H as [_ H3]. split_and!; [done| |done].
      intros q Hq. apply H2. intros ->. by apply Hq.
    + apply Stat_inr in Hst as (Hres & n & Hn & ->).
      destruct n as [m d|m]; simpl; intros [= <- <-]; split_and!; try done.
      intros _. split; [done|]. exists m. split; [done|]. by rewrite Hn.
  - cbn [os.MkdirAllRev]. simpl rev.
    destruct (os.Stat env fs (rev rp ++ [a])) as [e|dir] eqn:Hst.
    + destruct (os.MkdirAllRev env rp perm fs) as [[e'|] fs'] eqn:Hrec.
      * intros [= <- <-]. destruct (IH _ _ eq_refl) as (H1 & H2 & _).
        split_and!; [done| |done].
        intros q Hq. apply H2. intros Hp. apply Hq. by apply prefix_app_r.
      * destruct (IH _ _ eq_refl) as (H1 & H2 & _).
        intros H. pose proof (Hstep _ _ _ _ H) as [H4 H5].
        apply mkdirChecked_spec in H as [_ H3]. split_and!.
        -- intros q Hq. rewrite H4, H1; [done..|]. by rewrite H1.
        -- intros q Hq. rewrite H5, H2; [done| |].
           ++ intros Hp. apply Hq. by apply prefix_app_r.
           ++ intros ->. by apply Hq.
        -- intros Hr. destruct (H3 Hr) as (Hres & m & Hm & Hnew).
           split; [done|]. exists m. split; [done|]. intros Hp. apply Hnew.
           rewrite H2; [done|]. apply prefix_snoc_not.
    + apply Stat_inr in Hst as (Hres & n & Hn & ->).
      destruct n as [m d|m]; simpl; intros [= <- <-]; split_and!; try done.
      intros _. split; [done|]. exists m. split; [done|]. by rewrite Hn.
Qed.

Lemma MkdirAll_spec p perm fs r g :
  os.MkdirAll env p perm fs = (r, g) ->
  (forall q, fs !! q <> None -> g !! q = fs !! q)
  /\ (forall q, ~ q `prefix_of` p -> g !! q = fs !! q)
  /\ (r = None ->
      resolvable env g p
      /\ exists m, g !! p = Some (Dir m)
                   /\ (fs !! p = None -> m = N.ldiff perm (umask env))).
Proof.
  unfold os.MkdirAll. intros H%MkdirAllRev_spec. by rewrite rev_involutive in H.
Qed.

Lemma MkdirAll_grows p perm fs r g :
  os.MkdirAll env p perm fs = (r, g) -> grows fs g.
Proof.
  intros (H & _)%MkdirAll_spec q. specialize (H q).
  destruct (fs !! q) as [[]|] eqn:E; [| |done]; rewrite H; eauto.
Qed.


(** *** Directory listing *)

Lemma childName_Some (p k : list string) n :
  os.childName p k = Some n <-> k = p ++ [n].
Proof.
  revert k. induction p as [|a p IH]; intros k; simpl.
  - destruct k as [|b [|c k]]; split; intros H; by simplify_eq.
  - destruct k as [|b k]; [split; intros H; by simplify_eq|].
    case_decide as Hab.
    + subst b. rewrite IH. split; intros H; by simplify_eq.
    + split; intros H; by simplify_eq.
Qed.

Lemma elem_of_childNames fs p n :
  n ∈ omap (os.childName p) (map_to_list fs).*1 <-> is_Some (fs !! (p ++ [n])).
Proof.
  rewrite list_elem_of_omap. split.
  - intros (k & Hk & ->%childName_Some).
    apply list_elem_of_fmap in Hk as ([k' x] & -> & Hx).
    apply elem_of_map_to_list in Hx. eauto.
  - intros [x Hx]. exists (p ++ [n]). split; [|by apply childName_Some].
    apply list_elem_of_fmap. exists (p ++ [n], x). split; [done|].
    by apply elem_of_map_to_list.
Qed.

Lemma NoDup_childNames fs p : NoDup (omap (os.childName p) (map_to_list fs).*1).
Proof.
  generalize (NoDup_fst_map_to_list fs).
  induction ((map_to_list fs).*1) as [|k l IH]; simpl; [constructor|].
  intros [Hk Hl]%NoDup_cons. destruct (os.childName p k) as [n|] eqn:E; [|auto].
  apply NoDup_cons. split; [|auto].
  intros (k' & Hk' & E')%list_elem_of_omap.
  apply childName_Some in E, E'. by subst.
Qed.

Lemma merge_sort_perm (l1 l2 : list string) :
  l1 ≡ₚ l2 -> merge_sort String.le l1 = merge_sort String.le l2.
Proof.
  intros H. apply (Sorted_unique String.le).
  - apply Sorted_merge_sort, _.
  - apply Sorted_merge_sort, _.
  - by rewrite !merge_sort_Permutation.
Qed.

Lemma readDirNames_inr fs p names :
  os.readDirNames env fs p = inr names ->
  resolvable env fs p
  /\ (exists m, fs !! p = Some (Dir m) /\ allows env ReadAccess p m = true)
  /\ NoDup names
  /\ forall n, n ∈ names <-> is_Some (fs !! (p ++ [n])).
Proof.
  unfold os.readDirNames. destruct (os.resolve env fs p) as [e|o] eqn:Hr; [done|].
  apply resolve_inr in Hr as [Hres ->].
  destruct (fs !! p) as [[|m]|]; try done.
  destruct (allows env ReadAccess p m) eqn:Ha; [|done].
  intros [= <-]. split_and!; [done|eauto| |].
  - rewrite merge_sort_Permutation. apply NoDup_childNames.
  - intros n. rewrite merge_sort_Permutation. apply elem_of_childNames.
Qed.


Lemma readDirNames_ext fs g p :
  os.resolve env fs p = os.resolve env g p ->
  (forall n, is_Some (fs !! (p ++ [n])) <-> is_Some (g !! (p ++ [n]))) ->
  os.readDirNames env fs p = os.readDirNames env g p.
Proof.
  intros Hp Hn. unfold os.readDirNames. rewrite <- Hp.
  destruct (os.resolve env fs p) as [|[[|m]|]]; try done.
  destruct (allows env ReadAccess p m); [|done]. f_equal.
  apply merge_sort_perm, NoDup_Permutation; [apply NoDup_childNames..|].
  intros n. by rewrite !elem_of_childNames.
Qed.

Lemma Name_entryOf fs p n : Name (os.entryOf fs p n) = n.
Proof.
  unfold os.entryOf. destruct (fs !! (p ++ [n])); [|done].
  simpl. apply baseName_snoc.
Qed.

Lemma ReadDir_inr fs p entries :
  os.ReadDir env fs p = inr entries ->
  exists names,
    entries = os.entryOf fs p <$> names
    /\ os.readDirNames env fs p = inr names.
Proof.
  unfold os.ReadDir. destruct (os.readDirNames env fs p) as [|names] eqn:E; [done|].
  intros [= <-]. by exists names.
Qed.

(** *** Files *)

Lemma Open_inr fs p n :
  os.Open env fs p = inr n <->
  resolvable env fs p /\ fs !! p = Some n
  /\ allows env ReadAccess p (os.nodeMode n) = true.
Proof.
  unfold os.Open. destruct (os.resolve env fs p) as [e|o] eqn:Hr.
  - split; [done|]. intros [Hres _].
    assert (os.resolve env fs p = inr (fs !! p)) by (by apply resolve_inr).
    congruence.
  - apply resolve_inr in Hr as [Hres ->]. destruct (fs !! p) as [n'|].
    + destruct (allows env ReadAccess p (os.nodeMode n')) eqn:Ha.
      * split; [by intros [= <-]|]. by intros (_ & [= <-] & _).
      * split; [done|]. intros (_ & [= <-] & Ha'). congruence.
    + split; [done|]. by intros (_ & ? & _).
Qed.

Lemma OpenFileTrunc_spec p perm fs r g :
  os.OpenFileTrunc env p perm fs = (r, g) ->
  grows fs g
  /\ (forall q, q <> p -> g !! q = fs !! q)
  /\ (r <> None -> g = fs)
  /\ (r = None ->
      resolvable env fs p
      /\ exists m, g = <[p := File m ""]> fs
                   /\ match fs !! p with
                      | Some (File m0 _) =>
                          m = m0 /\ allows env WriteAccess p m0 = true
                      | Some (Dir _) => False
                      | None => m = N.ldiff perm (umask env)
                      end).
Proof.
  unfold os.OpenFileTrunc. destruct (os.resolve env fs p) as [e|o] eqn:Hr.
  { intros [= <- <-]. split_and!; [apply grows_refl|done..]. }
  apply resolve_inr in Hr as [Hres ->].
  destruct (fs !! p) as [[m d|m]|] eqn:E.
  - destruct (allows env WriteAccess p m) eqn:Ha; intros [= <- <-].
    + split_and!; [by eapply grows_insert_file| |done|].
      * intros q Hq. by rewrite lookup_insert_ne.
      * intros _. split; [done|]. by exists m.
    + split_and!; [apply grows_refl|done..].
  - intros [= <- <-]. split_and!; [apply grows_refl|done..].
  - destruct (fs !! os.parent p) as [[|m]|];
      try (intros [= <- <-]; split_and!; [apply grows_refl|done..]).
    destruct (allows env WriteAccess (os.parent p) m); intros [= <- <-].
    + split_and!; [by apply grows_insert_new| |done|].
      * intros q Hq. by rewrite lookup_insert_ne.
      * intros _. split; [done|]. by eexists.
    + split_and!; [apply grows_refl|done..].
Qed.

Lemma copyFile_spec src dst fs r g :
  copyFile env src dst fs = (r, g) ->
  grows fs g
  /\ (forall q, q <> dst -> g !! q = fs !! q)
  /\ (r = None -> src <> dst ->
      exists m m' data,
        fs !! src = Some (File m data)
        /\ resolvable env fs src
        /\ allows env ReadAccess src m = true
        /\ resolvable env fs dst
        /\ g !! dst = Some (File m' data)).
Proof.
  unfold copyFile. destruct (os.Open env fs src) as [e|n] eqn:Hsrc.
  { intros [= <- <-]. split_and!; [apply grows_refl|done..]. }
  apply Open_inr in Hsrc as (Hres & Hsrc & Ha).
  destruct (os.OpenFileTrunc env dst _ fs) as [[e|] fs1] eqn:Hopen.
  { intros [= <- <-]. apply OpenFileTrunc_spec in Hopen as (? & ? & _). done. }
  apply OpenFileTrunc_spec in Hopen as (Hg & Hf & _ & Hd).
  destruct (Hd eq_refl) as (Hresd & m' & -> & _).
  unfold os.readData, os.writeData. rewrite lookup_insert_eq.
  destruct (<[dst:=File m' ""]> fs !! src) as [[m d|m]|] eqn:Hsrc1;
    intros [= <- <-].
  - split_and!.
    + eapply grows_trans; [done|]. eapply grows_insert_file. apply lookup_insert_eq.
    + intros q Hq. rewrite lookup_insert_ne by done. by apply Hf.
    + intros _ Hne. rewrite lookup_insert_ne in Hsrc1 by done.
      rewrite Hsrc1 in Hsrc. injection Hsrc as <-.
      exists m, m', d. by rewrite lookup_insert_eq.
  - done.
  - done.
Qed.


End FsFacts.

(** ** Facts about the Tree Copier *)

Section CopyLoop.

(** The loop, for any [rec] that keeps what exists and writes only on the
    way to its destination and below it. *)
Variable env : Env.
Variable rec : list string -> list string -> FS -> Run.

Hypothesis rec_grows :
  forall s d fs r g, rec s d fs = Some (r, g) -> grows fs g.

Hypothesis rec_frame :
  forall s d fs r g,
    rec s d fs = Some (r, g) ->
    forall q, ~ nested q d -> g !! q = fs !! q.

Lemma copyEntries_grows src dst entries fs r g :
  copyEntries env rec src dst entries fs = Some (r, g) -> grows fs g.
Proof.
  revert fs. induction entries as [|e entries IH]; intros fs; simpl.
  - intros [= <- <-]. apply grows_refl.
  - destruct (IsDir e).
    + destruct (shouldSkipDir (Name e)); [apply IH|].
      destruct (rec _ _ fs) as [[[err|] fs']|] eqn:Hrec; [| |done].
      * intros [= <- <-]. by eapply rec_grows.
      * intros H. eapply grows_trans; [by eapply rec_grows|by apply IH].
    + destruct (shouldCopyFile (Name e)); [|apply IH].
      destruct (copyFile env _ _ fs) as [[err|] fs'] eqn:Hcp.
      * intros [= <- <-]. by apply copyFile_spec in Hcp as (? & _).
      * intros H. apply copyFile_spec in Hcp as (? & _).
        eapply grows_trans; [done|by apply IH].
Qed.

Lemma copyEntries_frame src dst entries fs r g :
  copyEntries env rec src dst entries fs = Some (r, g) ->
  forall q, (forall e, e ∈ entries -> ~ nested q (dst ++ [Name e])) ->
            g !! q = fs !! q.
Proof.
  revert fs. induction entries as [|e entries IH]; intros fs; simpl.
  - by intros [= <- <-].
  - intros H q Hq.
    assert (~ nested q (dst ++ [Name e])) as Hqe by (apply Hq; left).
    assert (forall e', e' ∈ entries -> ~ nested q (dst ++ [Name e'])) as Hq'
      by (intros e' He'; apply Hq; by right).
    assert (q <> dst ++ [Name e]) as Hne by (intros ->; apply Hqe; by left).
    destruct (IsDir e).
    + destruct (shouldSkipDir (Name e)); [by eapply IH|].
      destruct (rec _ _ fs) as [[[err|] fs']|] eqn:Hrec; [| |done].
      * injection H as <- <-. by eapply rec_frame.
      * rewrite (IH fs') by done. by eapply rec_frame.
    + destruct (shouldCopyFile (Name e)); [|by eapply IH].
      destruct (copyFile env _ _ fs) as [[err|] fs'] eqn:Hcp;
        apply copyFile_spec in Hcp as (Hg & Hf & _).
      * injection H as <- <-. by apply Hf.
      * rewrite (IH fs') by done. by apply Hf.
Qed.

End CopyLoop.

Section CopyFacts.

Variable env : Env.

Implicit Types (fs g h : FS) (p q src dst : list string).

Lemma copyDir_S depth src dst fs :
  copyDir env (S depth) src dst fs =
  match os.Stat env fs src with
  | inl e => Some (Some e, fs)
  | inr srcInfo =>
      match os.MkdirAll env dst (Mode srcInfo) fs with
      | (Some e, fs1) => Some (Some e, fs1)
      | (None, fs1) =>
          match os.ReadDir env fs1 src with
          | inl e => Some (Some e, fs1)
          | inr entries =>
              copyEntries env (copyDir env depth) src dst entries fs1
          end
      end
  end.
Proof. done. Qed.

Lemma copyDir_grows depth src dst fs r g :
  copyDir env depth src dst fs = Some (r, g) -> grows fs g.
Proof.
  revert src dst fs r g. induction depth as [|depth IH]; intros src dst fs r g;
    [done|]. rewrite copyDir_S.
  destruct (os.Stat env fs src) as [e|info]; [intros [= <- <-]; apply grows_refl|].
  destruct (os.MkdirAll env dst _ fs) as [[e|] fs1] eqn:Hmk;
    apply MkdirAll_grows in Hmk; [by intros [= <- <-]|].
  destruct (os.ReadDir env fs1 src) as [e|entries]; [by intros [= <- <-]|].
  intros H. eapply grows_trans; [done|]. by eapply copyEntries_grows.
Qed.

(** [copyDir] writes only on the way to the destination and below it. *)
Lemma copyDir_frame depth src dst fs r g :
  copyDir env depth src dst fs = Some (r, g) ->
  forall q, ~ nested q dst -> g !! q = fs !! q.
Proof.
  revert src dst fs r g. induction depth as [|depth IH]; intros src dst fs r g;
    [done|]. rewrite copyDir_S.
  destruct (os.Stat env fs src) as [e|info]; [by intros [= <- <-]|].
  destruct (os.MkdirAll env dst _ fs) as [[e|] fs1] eqn:Hmk;
    apply MkdirAll_spec in Hmk as (_ & Hfs1 & _).
  { intros [= <- <-] q Hq. apply Hfs1. intros ?. apply Hq. by left. }
  destruct (os.ReadDir env fs1 src) as [e|entries].
  { intros [= <- <-] q Hq. apply Hfs1. intros ?. apply Hq. by left. }
  intros H q Hq. rewrite <- Hfs1 by (intros ?; apply Hq; by left).
  eapply (copyEntries_frame env (copyDir env depth)); [apply IH|done|].
  intros e _ [Hp|Hp]; apply Hq.
  - apply prefix_snoc_inv in Hp as [Hp| ->]; [by left|]. right.
    by apply prefix_app_r.
  - right. by eapply prefix_app_l.
Qed.

Lemma copyEntries_app rec src dst es1 es2 fs :
  copyEntries env rec src dst (es1 ++ es2) fs =
  match copyEntries env rec src dst es1 fs with
  | Some (None, h) => copyEntries env rec src dst es2 h
  | other => other
  end.
Proof.
  revert fs. induction es1 as [|e es1 IH]; intros fs; simpl.
  - by destruct (copyEntries env rec src dst es2 fs) as [[[]]|].
  - destruct (IsDir e).
    + destruct (shouldSkipDir (Name e)); [apply IH|].
      destruct (rec _ _ fs) as [[[]]|]; [done|apply IH|done].
    + destruct (shouldCopyFile (Name e)); [|apply IH].
      destruct (copyFile env _ _ fs) as [[]]; [done|apply IH].
Qed.

(** A failing loop stops at the entry that failed. *)
Lemma copyEntries_failed rec src dst entries fs e g :
  copyEntries env rec src dst entries fs = Some (Some e, g) ->
  exists done bad rest h,
    entries = done ++ bad :: rest
    /\ copyEntries env rec src dst done fs = Some (None, h)
    /\ copyEntries env rec src dst [bad] h = Some (Some e, g).
Proof.
  revert fs. induction entries as [|a entries IH]; intros fs; [done|].
  destruct (copyEntries env rec src dst [a] fs) as [[[e'|] h]|] eqn:Ha.
  - change (a :: entries) with ([a] ++ entries). rewrite copyEntries_app, Ha.
    intros [= -> ->]. by exists [], a, entries, fs.
  - change (a :: entries) with ([a] ++ entries) at 1. rewrite copyEntries_app, Ha.
    intros (done & bad & rest & h' & -> & Hd & Hb)%IH.
    exists (a :: done), bad, rest, h'. split_and!; [done| |done].
    change (a :: done) with ([a] ++ done). by rewrite copyEntries_app, Ha.
  - change (a :: entries) with ([a] ++ entries). by rewrite copyEntries_app, Ha.
Qed.

(** The bound on the depth only cuts runs off: a run that returns does so
    with the same result under any larger bound. *)
Lemma copyEntries_rec_mono (rec1 rec2 : list string -> list string -> FS -> Run)
    src dst entries fs res :
  (forall s d h r, rec1 s d h = Some r -> rec2 s d h = Some r) ->
  copyEntries env rec1 src dst entries fs = Some res ->
  copyEntries env rec2 src dst entries fs = Some res.
Proof.
  intros Hrec. revert fs. induction entries as [|e entries IH]; intros fs; simpl;
    [done|].
  destruct (IsDir e).
  - destruct (shouldSkipDir (Name e)); [apply IH|].
    destruct (rec1 _ _ fs) as [[[err|] fs']|] eqn:H1; [| |done];
      rewrite (Hrec _ _ _ _ H1); [done|apply IH].
  - destruct (shouldCopyFile (Name e)); [|apply IH].
    destruct (copyFile env _ _ fs) as [[err|] fs']; [done|apply IH].
Qed.

Lemma copyDir_depth_mono depth depth' src dst fs res :
  depth <= depth' ->
  copyDir env depth src dst fs = Some res ->
  copyDir env depth' src dst fs = Some res.
Proof.
  revert depth' src dst fs res.
  induction depth as [|depth IH]; intros depth' src dst fs res Hle; [done|].
  destruct depth' as [|depth']; [lia|]. rewrite !copyDir_S.
  destruct (os.Stat env fs src); [done|].
  destruct (os.MkdirAll env dst _ fs) as [[e|] fs1]; [done|].
  destruct (os.ReadDir env fs1 src); [done|].
  apply copyEntries_rec_mono. intros s d h r. apply IH. lia.
Qed.

(** [copyDir] returns: every nested call has a longer source path, and the
    stat of a path longer than the system accepts fails. *)
Lemma copyEntries_returns rec src dst entries fs :
  (forall a h, exists res, rec (src ++ [a]) (dst ++ [a]) h = Some res) ->
  exists res, copyEntries env rec src dst entries fs = Some res.
Proof.
  intros Hrec. revert fs. induction entries as [|e entries IH]; intros fs; simpl;
    [by eexists|].
  destruct (IsDir e).
  - destruct (shouldSkipDir (Name e)); [apply IH|].
    destruct (Hrec (Name e) fs) as [[[err|] fs'] ->]; [by eexists|apply IH].
  - destruct (shouldCopyFile (Name e)); [|apply IH].
    destruct (copyFile env _ _ fs) as [[err|] fs']; [by eexists|apply IH].
Qed.

Lemma copyDir_returns_from depth src dst fs :
  pathMax env + 2 <= depth + os.pathLen src -> 1 <= depth ->
  exists res, copyDir env depth src dst fs = Some res.
Proof.
  revert src dst fs. induction depth as [|depth IH]; intros src dst fs Hb Hd;
    [lia|]. rewrite copyDir_S.
  destruct (os.Stat env fs src) as [e|info] eqn:Hst; [by eexists|].
  apply Stat_inr in Hst as ([Hl _] & _).
  destruct (os.MkdirAll env dst _ fs) as [[e|] fs1]; [by eexists|].
  destruct (os.ReadDir env fs1 src) as [e|entries]; [by eexists|].
  apply copyEntries_returns. intros a h. apply IH.
  - rewrite pathLen_snoc. lia.
  - lia.
Qed.

Lemma copyDir_returns depth src dst fs :
  pathMax env + 2 <= depth ->
  exists res, copyDir env depth src dst fs = Some res.
Proof. intros H. apply copyDir_returns_from; lia. Qed.

(** [mirrored] looks at the two directories and below them, and at the
    directories on the way to them. *)
Lemma mirrored_local depth src dst fs g :
  grows fs g ->
  (forall q, src `prefix_of` q \/ dst `prefix_of` q -> g !! q = fs !! q) ->
  mirrored env depth src dst fs -> mirrored env depth src dst g.
Proof.
  intros Hg. revert src dst. induction depth as [|depth IH]; intros src dst Hq;
    simpl; [done|].
  intros (Hrs & Hs & Hrd & Hd & Hn). rewrite !Hq by (by left + by right).
  split_and!; [by eapply resolvable_grows|done|by eapply resolvable_grows|done|].
  intros name. specialize (Hn name).
  rewrite Hq by (left; by apply prefix_app_r).
  destruct (fs !! (src ++ [name])) as [[m d|m]|]; [| |done].
  - intros Hc. destruct (Hn Hc) as (H1 & H2 & H3 & H4).
    rewrite Hq by (right; by apply prefix_app_r).
    split_and!; [by eapply resolvable_grows|done|by eapply resolvable_grows|done].
  - intros Hc. apply IH; [|auto].
    intros q [H|H]; apply Hq; [left|right]; by eapply prefix_app_l.
Qed.

Lemma copyEntries_mirrors depth src dst fs1 :
  ~ nested src dst ->
  (forall s d fs g, ~ nested s d -> copyDir env depth s d fs = Some (None, g) ->
                    mirrored env depth s d g) ->
  forall names h g,
    (forall q, src `prefix_of` q -> h !! q = fs1 !! q) ->
    (forall n, n ∈ names -> is_Some (fs1 !! (src ++ [n]))) ->
    copyEntries env (copyDir env depth) src dst (os.entryOf fs1 src <$> names) h
      = Some (None, g) ->
    forall n, n ∈ names -> entryMirrored env depth src dst fs1 g n.
Proof.
  intros Hn IH names. induction names as [|a names IHnames];
    intros h g Hstable Hex; [by intros _ n ?%elem_of_nil|].
  rewrite fmap_cons. simpl. rewrite Name_entryOf.
  destruct (Hex a) as [node Hnode]; [left|].
  assert (forall n, n ∈ names -> is_Some (fs1 !! (src ++ [n]))) as Hex'
    by (intros n ?; apply Hex; by right).
  (* The rest of the loop leaves what entry [a] produced. *)
  assert (forall h' r g',
            copyEntries env (copyDir env depth) src dst
              (os.entryOf fs1 src <$> names) h' = Some (r, g') ->
            a ∉ names ->
            forall q, src `prefix_of` q \/ dst ++ [a] `prefix_of` q ->
                      g' !! q = h' !! q) as Hrest.
  { intros h' r g' Hrun Ha q Hq.
    eapply (copyEntries_frame env (copyDir env depth));
      [apply copyDir_frame|done|].
    intros e (n & -> & Hin)%list_elem_of_fmap. rewrite Name_entryOf.
    destruct Hq as [Hq|Hq].
    - by apply (below_src_not_nested src dst).
    - apply (below_child_not_nested dst a n); [|done]. by intros ->. }
  assert (forall h' r g',
            copyEntries env (copyDir env depth) src dst
              (os.entryOf fs1 src <$> names) h' = Some (r, g') -> grows h' g')
    as Hgrows.
  { intros h' r g'. eapply copyEntries_grows. apply copyDir_grows. }
  unfold os.entryOf at 1 2. rewrite Hnode. simpl.
  destruct node as [m data|m]; simpl.
  - (* a regular file *)
    destruct (shouldCopyFile a) eqn:Hcopy.
    + destruct (copyFile env _ _ h) as [[e|] h'] eqn:Hcp; [done|].
      apply copyFile_spec in Hcp as (Hg & Hf & Hok).
      intros Hrun n Hin.
      assert (forall q, src `prefix_of` q -> h' !! q = fs1 !! q) as Hstable'.
      { intros q Hq. rewrite Hf; [by apply Hstable|].
        intros ->. by eapply (not_nested_below src dst a). }
      destruct (decide (n ∈ names)) as [Hn'|Hn']; [by eapply IHnames|].
      apply elem_of_cons in Hin as [->|]; [|done].
      unfold entryMirrored. rewrite Hnode. intros _.
      destruct Hok as (m1 & m2 & d & Hs & Hrs & Has & Hrd & Hd);
        [done|by apply not_nested_ne, not_nested_snoc|].
      rewrite Hstable, Hnode in Hs by (by apply prefix_app_r).
      injection Hs as <- <-.
      assert (grows h g) as Hhg
        by (eapply grows_trans; [done|by eapply Hgrows]).
      split_and!; [by eapply resolvable_grows|done|by eapply resolvable_grows|].
      exists m2. rewrite (Hrest h' None g); [done|done|done|by right].
    + intros Hrun n Hin.
      destruct (decide (n ∈ names)) as [Hn'|Hn']; [by eapply IHnames; eauto|].
      apply elem_of_cons in Hin as [->|]; [|done].
      unfold entryMirrored. rewrite Hnode. congruence.
  - (* a directory *)
    destruct (shouldSkipDir a) eqn:Hskip.
    + intros Hrun n Hin.
      destruct (decide (n ∈ names)) as [Hn'|Hn']; [by eapply IHnames; eauto|].
      apply elem_of_cons in Hin as [->|]; [|done].
      unfold entryMirrored. rewrite Hnode. congruence.
    + destruct (copyDir env depth _ _ h) as [[[e|] h']|] eqn:Hsub; [done| |done].
      intros Hrun n Hin.
      assert (forall q, src `prefix_of` q -> h' !! q = fs1 !! q) as Hstable'.
      { intros q Hq. rewrite <- Hstable by done.
        eapply copyDir_frame; [done|]. by apply (below_src_not_nested src dst). }
      destruct (decide (n ∈ names)) as [Hn'|Hn']; [by eapply IHnames|].
      apply elem_of_cons in Hin as [->|]; [|done].
      unfold entryMirrored. rewrite Hnode. intros _.
      eapply (mirrored_local depth _ _ h').
      * by eapply Hgrows.
      * intros q [Hq|Hq].
        -- apply (Hrest h' None g); [done|done|]. left. by eapply prefix_app_l.
        -- apply (Hrest h' None g); [done|done|]. by right.
      * apply IH in Hsub; [done|]. by apply not_nested_snoc.
Qed.

(** A successful [copyDir] leaves the selected part of the source mirrored
    under the destination. *)
Lemma copyDir_mirrors depth src dst fs g :
  ~ nested src dst ->
  copyDir env depth src dst fs = Some (None, g) -> mirrored env depth src dst g.
Proof.
  revert src dst fs g. induction depth as [|depth IH]; intros src dst fs g Hn;
    [done|]. rewrite copyDir_S.
  destruct (os.Stat env fs src) as [e|info] eqn:Hstat; [done|].
  destruct (os.MkdirAll env dst _ fs) as [[e|] fs1] eqn:Hmk; [done|].
  apply MkdirAll_spec in Hmk as (_ & _ & Hdir).
  destruct (Hdir eq_refl) as (Hrd & mdst & Hmdst & _).
  destruct (os.ReadDir env fs1 src) as [e|entries] eqn:Hrdir; [done|].
  apply ReadDir_inr in Hrdir as (names & -> & Hnames).
  apply readDirNames_inr in Hnames as (Hrs & (msrc & Hsrc & Hread) & _ & Hnames).
  intros Hrun.
  assert (forall q, src `prefix_of` q -> g !! q = fs1 !! q) as Hstable.
  { intros q Hq.
    eapply (copyEntries_frame env (copyDir env depth));
      [apply copyDir_frame|done|].
    intros e _. by apply (below_src_not_nested src dst). }
  assert (grows fs1 g) as Hg
    by (eapply copyEntries_grows; [apply copyDir_grows|done]).
  cbn [mirrored]. split_and!.
  - by eapply resolvable_grows.
  - exists msrc. by rewrite Hstable.
  - by eapply resolvable_grows.
  - exists mdst. by eapply grows_dir.
  - intros name. rewrite Hstable by (by apply prefix_app_r).
    destruct (fs1 !! (src ++ [name])) as [node|] eqn:Hnode; [|done].
    assert (name ∈ names) as Hin by (apply Hnames; eauto).
    pose proof (copyEntries_mirrors depth src dst fs1 Hn IH names fs1 g
                  (fun _ _ => eq_refl)
                  (fun n Hn' => proj1 (Hnames n) Hn') Hrun name Hin) as Hm.
    unfold entryMirrored in Hm. by rewrite Hnode in Hm.
Qed.


End CopyFacts.

(** ** Facts about the Module Rewriter *)

Section RewriteFacts.

Variable env : Env.
Variables old new : string.

Implicit Types (fs g : FS) (p q : list string) (w v : World).

Lemma wellFormed_parents fs : wellFormed fs = true -> parentsAreDirs fs.
Proof.
  unfold wellFormed. rewrite forallb_forall. intros H p a [n Hn].
  specialize (H (p ++ [a])). rewrite parent_snoc in H.
  destruct (p ++ [a]) eqn:E; [by destruct p|]. rewrite <- E in *.
  assert (In (p ++ [a]) (map_to_list fs).*1) as Hin.
  { apply list_elem_of_In, list_elem_of_fmap. exists (p ++ [a], n).
    split; [done|]. by apply elem_of_map_to_list. }
  apply H in Hin. destruct (fs !! p) as [[]|]; eauto; done.
Qed.

Lemma depthBound_lt fs q : is_Some (fs !! q) -> length q < depthBound fs.
Proof.
  intros [n Hn]. unfold depthBound.
  assert (length q ∈ length <$> (map_to_list fs).*1) as Hin.
  { apply list_elem_of_fmap. exists q. split; [done|].
    apply list_elem_of_fmap. exists (q, n). split; [done|].
    by apply elem_of_map_to_list. }
  apply max_list_elem_of_le in Hin. lia.
Qed.

Lemma rewritten_info p n : os.infoOf p (rewritten old new p n) = os.infoOf p n.
Proof. destruct n; simpl; [|done]. by case_match. Qed.

Lemma rewritten_mode p n : os.nodeMode (rewritten old new p n) = os.nodeMode n.
Proof. destruct n; simpl; [|done]. by case_match. Qed.

(** *** Stores with the same nodes, kinds and modes *)

Lemma sameMeta_refl fs : sameMeta fs fs.
Proof. done. Qed.

Lemma sameMeta_trans fs g h : sameMeta fs g -> sameMeta g h -> sameMeta fs h.
Proof. intros H1 H2 q. by rewrite H2, H1. Qed.

Lemma sameMeta_node fs g q :
  sameMeta fs g ->
  match fs !! q with
  | Some (Dir m) => g !! q = Some (Dir m)
  | Some (File m _) => exists c, g !! q = Some (File m c)
  | None => g !! q = None
  end.
Proof.
  intros H. specialize (H q). unfold os.infoOf in H.
  destruct (fs !! q) as [[m c|m]|], (g !! q) as [[m' c'|m']|];
    simplify_eq/=; eauto.
Qed.

Lemma sameMeta_parents fs g : sameMeta fs g -> parentsAreDirs fs -> parentsAreDirs g.
Proof.
  intros Hs Hp p a [n Hn].
  destruct (Hp p a) as [m Hm].
  { pose proof (sameMeta_node _ _ (p ++ [a]) Hs) as H. rewrite Hn in H.
    destruct (fs !! (p ++ [a])) as [[]|]; eauto; done. }
  pose proof (sameMeta_node _ _ p Hs) as H. rewrite Hm in H. eauto.
Qed.

Lemma sameMeta_is_Some fs g q : sameMeta fs g -> is_Some (g !! q) -> is_Some (fs !! q).
Proof.
  intros Hs [n Hn]. pose proof (sameMeta_node _ _ q Hs) as H. rewrite Hn in H.
  destruct (fs !! q) as [[]|]; eauto; done.
Qed.

Lemma ancestorsOk_meta fs g pre rest :
  sameMeta fs g ->
  os.ancestorsOk env g pre rest = os.ancestorsOk env fs pre rest.
Proof.
  intros Hs. revert pre. induction rest as [|c rest IH]; intros pre; simpl; [done|].
  pose proof (sameMeta_node _ _ pre Hs) as H.
  destruct (fs !! pre) as [[m x|m]|].
  - destruct H as [c' ->]. done.
  - rewrite H. by destruct (allows env SearchAccess pre m).
  - by rewrite H.
Qed.

Lemma resolve_meta fs g p :
  sameMeta fs g ->
  os.resolve env g p =
  match os.resolve env fs p with
  | inl e => inl e
  | inr _ => inr (g !! p)
  end.
Proof.
  intros Hs. unfold os.resolve. rewrite (ancestorsOk_meta fs g) by done.
  destruct (Nat.ltb _ _); [done|]. by destruct (os.ancestorsOk env fs [] p).
Qed.

Lemma Stat_meta fs g p : sameMeta fs g -> os.Stat env g p = os.Stat env fs p.
Proof.
  intros Hs. unfold os.Stat. rewrite (resolve_meta fs g) by done.
  destruct (os.resolve env fs p) as [e|o] eqn:Hr; [done|].
  apply resolve_inr in Hr as [_ ->]. specialize (Hs p).
  destruct (fs !! p), (g !! p); simpl in Hs; try done. congruence.
Qed.

Lemma readDirNames_meta fs g p :
  sameMeta fs g -> os.readDirNames env g p = os.readDirNames env fs p.
Proof.
  intros Hs. unfold os.readDirNames. rewrite (resolve_meta fs g) by done.
  destruct (os.resolve env fs p) as [e|o] eqn:Hr; [done|].
  apply resolve_inr in Hr as [_ ->].
  pose proof (sameMeta_node _ _ p Hs) as H.
  destruct (fs !! p) as [[m c|m]|].
  - destruct H as [c' ->]. done.
  - rewrite H. destruct (allows env ReadAccess p m); [|done]. f_equal.
    apply merge_sort_perm, NoDup_Permutation; [apply NoDup_childNames..|].
    intros n. rewrite !elem_of_childNames.
    pose proof (sameMeta_node _ _ (p ++ [n]) Hs) as Hn.
    destruct (fs !! (p ++ [n])) as [[]|].
    + destruct Hn as [? ->]. split; eauto.
    + rewrite Hn. split; eauto.
    + rewrite Hn. done.
  - by rewrite H.
Qed.

Lemma ReadFile_meta fs g p content :
  sameMeta fs g -> os.ReadFile env fs p = inr content ->
  exists m c, g !! p = Some (File m c) /\ os.ReadFile env g p = inr c.
Proof.
  intros Hs. unfold os.ReadFile.
  destruct (os.Open env fs p) as [e|n] eqn:Ho; [done|].
  apply Open_inr in Ho as (Hres & Hn & Ha).
  unfold os.readData. rewrite Hn. destruct n as [m c0|m]; [|done]. intros _.
  pose proof (sameMeta_node _ _ p Hs) as H. rewrite Hn in H. destruct H as [c Hc].
  exists m, c. split; [done|].
  assert (os.Open env g p = inr (File m c)) as ->; [|by rewrite Hc].
  apply Open_inr. split_and!; [|done..].
  destruct Hres as [Hl Hr]. split; [done|]. intros d x Hx.
  destruct (Hr d x Hx) as (m' & Hm' & Hs').
  pose proof (sameMeta_node _ _ d Hs) as Hd. rewrite Hm' in Hd. by exists m'.
Qed.

(** *** The callback *)

Lemma replaceVisit_error p info e w :
  replaceVisit env old new p info (Some e) w = (Some e, w).
Proof. done. Qed.

Lemma replaceVisit_dir p m w :
  replaceVisit env old new p (Some (os.infoOf p (Dir m))) None w = (None, w).
Proof. done. Qed.

Lemma WriteFile_existing p data perm fs m content r g :
  fs !! p = Some (File m content) ->
  os.WriteFile env p data perm fs = (r, g) ->
  (r <> None /\ g = fs) \/ (r = None /\ g = <[p := File m data]> fs).
Proof.
  intros Hp. unfold os.WriteFile.
  destruct (os.OpenFileTrunc env p perm fs) as [[e|] fs'] eqn:Ho;
    apply OpenFileTrunc_spec in Ho as (_ & _ & Hfail & Hok).
  - intros [= <- <-]. left. split; [done|]. by apply Hfail.
  - intros [= <- <-]. right. split; [done|].
    destruct (Hok eq_refl) as (_ & m' & -> & Hm'). rewrite Hp in Hm'.
    destruct Hm' as [-> _]. unfold os.writeData.
    by rewrite lookup_insert_eq, insert_insert_eq.
Qed.

(** The callback on a regular file: the file is rewritten or, on an error,
    left; a write is made only for a content that changes. *)
Lemma replaceVisit_file p info m content w r w' :
  files w !! p = Some (File m content) ->
  Name info = os.baseName p -> IsDir info = false -> Mode info = m ->
  replaceVisit env old new p (Some info) None w = (r, w') ->
  exists ws,
    writes w' = writes w ++ ws
    /\ (files w' = <[p := rewritten old new p (File m content)]> (files w)
        \/ (r <> None /\ files w' = files w))
    /\ (forall c, c ∈ ws -> changedBy old new (files w) p c /\ wPath c = p)
    /\ (r = None ->
        files w' = <[p := rewritten old new p (File m content)]> (files w)
        /\ forall c, changedBy old new (files w) p c -> wPath c = p -> c ∈ ws).
Proof.
  intros Hp Hname Hdir Hmode.
  assert (forall c, changedBy old new (files w) p c -> wPath c = p ->
                    rewritten old new p (File m content) = File m (wData c)
                    /\ wData c <> content /\ wPerm c = m) as Hch.
  { intros c (_ & m' & content' & Hc & Hr & Hne & Hm) Hpc.
    rewrite Hpc, Hp in Hc. injection Hc as <- <-. by rewrite Hpc in Hr. }
  assert (forall ws : list WriteCall, ws = [] ->
            rewritten old new p (File m content) = File m content ->
            writes w = writes w ++ ws
            /\ (files w = <[p := rewritten old new p (File m content)]> (files w)
                \/ (r <> None /\ files w = files w))
            /\ (forall c, c ∈ ws -> changedBy old new (files w) p c /\ wPath c = p)
            /\ (r = None ->
                files w = <[p := rewritten old new p (File m content)]> (files w)
                /\ forall c, changedBy old new (files w) p c -> wPath c = p ->
                             c ∈ ws)) as Hsame.
  { intros ws -> Hrw. rewrite Hrw, insert_id, app_nil_r by done.
    split_and!; [done|by left|by intros c ?%elem_of_nil|].
    intros _. split; [done|]. intros c Hc Hpc.
    destruct (Hch c Hc Hpc) as (Hr & Hne & _). congruence. }
  unfold replaceVisit. rewrite Hdir, Hname. cbv iota.
  unfold rewritten in *.
  destruct (HasSuffix (os.baseName p) ".go" || (os.baseName p =? "go.mod")%string)
    eqn:Hf.
  - assert (negb (HasSuffix (os.baseName p) ".go")
            && negb (os.baseName p =? "go.mod")%string = false) as ->.
    { rewrite <- negb_orb. by rewrite Hf. }
    destruct (os.ReadFile env (files w) p) as [e|content'] eqn:Hrf.
    { intros [= <- <-]. exists []. rewrite app_nil_r.
      split_and!; [done|by right|by intros c ?%elem_of_nil|done]. }
    assert (content' = content) as ->.
    { unfold os.ReadFile, os.readData in Hrf. rewrite Hp in Hrf.
      destruct (os.Open env (files w) p); by simplify_eq. }
    destruct (String.eqb_spec (ReplaceAll content old new) content) as [E|E];
      simpl negb; cbv iota.
    + intros [= <- <-]. exists []. apply Hsame; [done|]. by rewrite E.
    + destruct (os.WriteFile env p _ (Mode info) (files w)) as [r0 fs'] eqn:Hwf.
      intros [= <- <-]. simpl. rewrite Hmode.
      exists [mkWrite p (ReplaceAll content old new) m].
      assert (changedBy old new (files w) p
                (mkWrite p (ReplaceAll content old new) m)) as Hcall.
      { split; [done|]. exists m, content. unfold rewritten. simpl.
        by rewrite Hf. }
      destruct (WriteFile_existing _ _ _ _ _ _ _ _ Hp Hwf) as [[Hr ->]|[-> ->]].
      * split_and!; [done|by right| |done].
        by intros c ->%list_elem_of_singleton.
      * split_and!; [done|by left| |].
        -- by intros c ->%list_elem_of_singleton.
        -- intros _. split; [done|]. intros c Hc Hpc.
           destruct (Hch c Hc Hpc) as (Hr & Hne & Hm).
           apply list_elem_of_singleton. destruct c; simpl in *. by simplify_eq.
  - assert (negb (HasSuffix (os.baseName p) ".go")
            && negb (os.baseName p =? "go.mod")%string = true) as ->.
    { rewrite <- negb_orb. by rewrite Hf. }
    intros [= <- <-]. exists []. by apply Hsame.
Qed.

(** The callback changes no kind and no mode. *)
Lemma replaceVisit_meta p info err w r w' :
  replaceVisit env old new p info err w = (r, w') ->
  sameMeta (files w) (files w').
Proof.
  unfold replaceVisit. destruct err; [by intros [= <- <-]|].
  destruct info as [info|]; [|by intros [= <- <-]].
  destruct (IsDir info); [by intros [= <- <-]|].
  destruct (_ && _); [by intros [= <- <-]|].
  destruct (os.ReadFile env (files w) p) as [e|content] eqn:Hrf;
    [by intros [= <- <-]|].
  destruct (negb _); [|by intros [= <- <-]].
  destruct (os.WriteFile env p _ _ (files w)) as [r0 fs'] eqn:Hwf.
  intros [= <- <-]. simpl.
  unfold os.ReadFile, os.readData in Hrf.
  destruct (os.Open env (files w) p); [done|].
  destruct (files w !! p) as [[m c|]|] eqn:Hp; try done.
  destruct (WriteFile_existing _ _ _ _ _ _ _ _ Hp Hwf) as [[_ ->]|[_ ->]]; [done|].
  intros q. destruct (decide (p = q)) as [<-|Hne].
  - by rewrite lookup_insert_eq, Hp.
  - by rewrite lookup_insert_ne.
Qed.

Lemma below_missing_none fs p q :
  parentsAreDirs fs -> fs !! p = None -> p `prefix_of` q -> fs !! q = None.
Proof.
  intros Hwf Hp [k ->]. induction k as [|a k IH] using rev_ind.
  - by rewrite app_nil_r.
  - destruct (fs !! (p ++ k ++ [a])) eqn:E; [|done].
    rewrite (assoc_L (++)) in E. destruct (Hwf (p ++ k) a) as [m Hm]; [eauto|].
    by rewrite IH in Hm.
Qed.

Lemma below_file_none fs p q m content :
  parentsAreDirs fs -> fs !! p = Some (File m content) ->
  p `prefix_of` q -> q <> p -> fs !! q = None.
Proof.
  intros Hwf Hp [k ->] Hne. destruct k as [|a k]; [by rewrite app_nil_r in Hne|].
  apply (below_missing_none fs (p ++ [a])); [done| |].
  - destruct (fs !! (p ++ [a])) eqn:E; [|done].
    destruct (Hwf p a) as [m' Hm']; [eauto|]. by rewrite Hp in Hm'.
  - exists k. by rewrite <- (assoc_L (++)).
Qed.

Lemma attempted_sameMeta p r w w' :
  attempted old new p r w w' -> sameMeta (files w) (files w').
Proof.
  intros (Hin & Hout & _) q. destruct (decide (p `prefix_of` q)) as [H|H].
  - destruct (Hin q H) as [->|[_ ->]]; [|done].
    destruct (files w !! q); [|done]. simpl. by rewrite rewritten_info.
  - by rewrite Hout.
Qed.

Lemma changedBy_frame fs g p c :
  (forall q, p `prefix_of` q -> g !! q = fs !! q) ->
  changedBy old new g p c <-> changedBy old new fs p c.
Proof.
  intros H. unfold changedBy. split; intros [Hp Hc]; (split; [done|]).
  - by rewrite <- H.
  - by rewrite H.
Qed.

(** *** The walk *)

Lemma sameMeta_sym fs g : sameMeta fs g -> sameMeta g fs.
Proof. intros H q. by rewrite H. Qed.

Lemma attemptedNames_failed p names e w :
  attemptedNames old new p names (Some e) w w.
Proof.
  split_and!; [intros; by right|done|]. exists []. rewrite app_nil_r.
  split_and!; [done|by intros c ?%elem_of_nil|done].
Qed.

Lemma attempted_failed p e w : attempted old new p (Some e) w w.
Proof.
  split_and!; [intros; by right|done|]. exists []. rewrite app_nil_r.
  split_and!; [done|by intros c ?%elem_of_nil|done].
Qed.

Section Names.

Variable depth : nat.
Variable p : list string.

Hypothesis walk_children : forall a node w,
  parentsAreDirs (files w) ->
  files w !! (p ++ [a]) = Some node ->
  (forall q, is_Some (files w !! q) -> p ++ [a] `prefix_of` q ->
             length q < length (p ++ [a]) + depth) ->
  exists r w',
    filepath.walk env depth (replaceVisit env old new) (p ++ [a])
      (os.infoOf (p ++ [a]) node) w = Some (r, w')
    /\ attempted old new (p ++ [a]) r w w'.

Lemma walkNames_spec names w :
  NoDup names ->
  parentsAreDirs (files w) ->
  (forall n, n ∈ names -> is_Some (files w !! (p ++ [n]))) ->
  (forall q, is_Some (files w !! q) -> p `prefix_of` q ->
             length q < length p + S depth) ->
  exists r w',
    filepath.walkNames env
      (filepath.walk env depth (replaceVisit env old new))
      (replaceVisit env old new) p names w = Some (r, w')
    /\ attemptedNames old new p names r w w'.
Proof.
  revert w. induction names as [|a names IH]; intros w Hnd Hwf Hex Hb; simpl.
  { exists None, w. split; [done|]. split_and!; [by intros q n ?%elem_of_nil|done|].
    exists []. rewrite app_nil_r.
    split_and!; [done|by intros c ?%elem_of_nil|].
    by intros _ c n ?%elem_of_nil. }
  apply NoDup_cons in Hnd as [Ha Hnd].
  destruct (os.Stat env (files w) (p ++ [a])) as [err|info] eqn:Hst.
  { rewrite ?replaceVisit_error. exists (Some err), w. split; [done|].
    apply attemptedNames_failed. }
  apply Stat_inr in Hst as (_ & node & Hnode & ->).
  destruct (walk_children a node w Hwf Hnode) as (ra & wa & -> & Hatt).
  { intros q Hq Hpre. rewrite length_app. simpl.
    assert (p `prefix_of` q) as Hp by (etrans; [by apply prefix_app_r|done]).
    specialize (Hb q Hq Hp). lia. }
  pose proof (attempted_sameMeta _ _ _ _ Hatt) as Hmeta.
  destruct Hatt as (Hin & Hout & ws1 & Hws1 & Hs1 & Hc1).
  destruct ra as [e|].
  { exists (Some e), wa. split; [done|]. split_and!.
    - intros q n [->|Hn]%elem_of_cons Hpre; [by apply Hin|].
      right. split; [done|]. apply Hout. intros Hpa.
      pose proof (snoc_prefix_same _ _ _ _ Hpa Hpre). set_solver.
    - intros q Hq. apply Hout, Hq. by left.
    - exists ws1. split_and!; [done| |done].
      intros c Hc. exists a. split; [by left|by apply Hs1]. }
  destruct (IH wa Hnd) as (r & w' & -> & HinN & HoutN & ws2 & Hws2 & Hs2 & Hc2).
  { by eapply sameMeta_parents. }
  { intros n Hn. eapply sameMeta_is_Some; [by apply sameMeta_sym|].
    apply Hex. by right. }
  { intros q Hq. apply Hb. by eapply sameMeta_is_Some. }
  assert (forall n q, n ∈ names -> p ++ [n] `prefix_of` q ->
                      files wa !! q = files w !! q) as Hrest.
  { intros n q Hn Hpre. apply Hout. intros Hpa.
    pose proof (snoc_prefix_same _ _ _ _ Hpa Hpre). set_solver. }
  exists r, w'. split; [done|]. split_and!.
  - intros q n [->|Hn]%elem_of_cons Hpre.
    + left. rewrite HoutN.
      * destruct (Hin q Hpre) as [?|[? _]]; done.
      * intros n Hn Hpn. pose proof (snoc_prefix_same _ _ _ _ Hpre Hpn).
        set_solver.
    + rewrite <- (Hrest n q) by done. by apply (HinN q n).
  - intros q Hq. rewrite HoutN, Hout; [done|..].
    + apply Hq. by left.
    + intros n Hn. apply Hq. by right.
  - exists (ws1 ++ ws2). split_and!.
    + by rewrite Hws2, Hws1, (assoc_L (++)).
    + intros c [Hc|Hc]%elem_of_app.
      * exists a. split; [by left|by apply Hs1].
      * destruct (Hs2 c Hc) as (n & Hn & Hch). exists n. split; [by right|].
        eapply changedBy_frame; [|done]. intros q Hq. symmetry. by eapply Hrest.
    + intros -> c n [->|Hn]%elem_of_cons Hch; apply elem_of_app.
      * left. by apply Hc1.
      * right. apply (Hc2 eq_refl c n Hn).
        eapply changedBy_frame; [|done]. intros q Hq. by eapply Hrest.
Qed.

End Names.

Lemma walk_S depth p info w :
  filepath.walk env (S depth) (replaceVisit env old new) p info w =
  if negb (IsDir info) then Some (replaceVisit env old new p (Some info) None w)
  else
    match os.readDirNames env (files w) p with
    | inl err => Some (replaceVisit env old new p (Some info) (Some err) w)
    | inr names =>
        match replaceVisit env old new p (Some info) None w with
        | (Some e1, w1) => Some (Some e1, w1)
        | (None, w1) =>
            filepath.walkNames env
              (filepath.walk env depth (replaceVisit env old new))
              (replaceVisit env old new) p names w1
        end
    end.
Proof. done. Qed.

(** The walk from an existing node returns, given fuel for the depth of the
    tree below it, and attempts the rewrite of every file below. *)
Lemma walk_spec depth p node w :
  parentsAreDirs (files w) ->
  files w !! p = Some node ->
  (forall q, is_Some (files w !! q) -> p `prefix_of` q ->
             length q < length p + depth) ->
  exists r w',
    filepath.walk env depth (replaceVisit env old new) p (os.infoOf p node) w
    = Some (r, w')
    /\ attempted old new p r w w'.
Proof.
  revert p node w. induction depth as [|depth IH]; intros p node w Hwf Hp Hb.
  { assert (length p < length p + 0); [by apply Hb|lia]. }
  rewrite walk_S. destruct node as [m content|m].
  - change (IsDir (os.infoOf p (File m content))) with false. cbv iota. simpl negb.
    cbv iota.
    destruct (replaceVisit env old new p (Some (os.infoOf p (File m content)))
                None w) as [r w'] eqn:Hv.
    apply (replaceVisit_file p _ m content) in Hv
      as (ws & Hws & Hfs & Hsound & Hcomp); [|done..].
    exists r, w'. split; [done|]. split_and!.
    + intros q Hq. destruct (decide (q = p)) as [->|Hne].
      * destruct Hfs as [->|[Hr ->]]; [left|by right].
        by rewrite lookup_insert_eq, Hp.
      * left. rewrite (below_file_none _ _ _ _ _ Hwf Hp Hq Hne).
        destruct Hfs as [->|[Hr ->]].
        -- rewrite lookup_insert_ne by done.
           by rewrite (below_file_none _ _ _ _ _ Hwf Hp Hq Hne).
        -- by rewrite (below_file_none _ _ _ _ _ Hwf Hp Hq Hne).
    + intros q Hq. destruct Hfs as [->|[Hr ->]]; [|done].
      apply lookup_insert_ne. by intros ->.
    + exists ws. split_and!; [done|by intros c [? _]%Hsound|].
      intros Hr c Hc. apply (proj2 (Hcomp Hr) c Hc).
      destruct Hc as (Hpre & m' & content' & Hq & _).
      destruct (decide (wPath c = p)) as [|Hne]; [done|].
      by rewrite (below_file_none _ _ _ _ _ Hwf Hp Hpre Hne) in Hq.
  - change (IsDir (os.infoOf p (Dir m))) with true. simpl negb. cbv iota.
    destruct (os.readDirNames env (files w) p) as [err|names] eqn:Hrd.
    { rewrite ?replaceVisit_error. exists (Some err), w. split; [done|].
      apply attempted_failed. }
    apply readDirNames_inr in Hrd as (_ & _ & Hnd & Hmem).
    rewrite replaceVisit_dir.
    destruct (walkNames_spec depth p) with (names := names) (w := w)
      as (r & w' & -> & HinN & HoutN & ws & Hws & Hsound & Hcomp).
    { intros a node w0 Hwf0 Hnode Hb0. by apply IH. }
    { done. }
    { done. }
    { intros n Hn. by apply Hmem. }
    { intros q Hq Hpre. specialize (Hb q Hq Hpre). lia. }
    assert (forall a q, p ++ [a] `prefix_of` q -> a ∉ names ->
                        files w' !! q = None /\ files w !! q = None) as Hmiss.
    { intros a q Hq Ha.
      assert (files w !! q = None) as Hnone.
      { apply (below_missing_none _ (p ++ [a])); [done| |done].
        destruct (files w !! (p ++ [a])) eqn:E; [|done].
        destruct Ha. apply Hmem. eauto. }
      split; [|done]. rewrite HoutN; [done|].
      intros n Hn Hpn. pose proof (snoc_prefix_same _ _ _ _ Hq Hpn). by subst. }
    exists r, w'. split; [done|]. split_and!.
    + intros q [k ->]. destruct k as [|a k].
      * left. rewrite app_nil_r, HoutN, Hp; [done|].
        intros n _ Hpn%prefix_length. rewrite length_app in Hpn. simpl in Hpn. lia.
      * assert (p ++ [a] `prefix_of` p ++ a :: k) as Hpa.
        { exists k. by rewrite <- (assoc_L (++)). }
        destruct (decide (a ∈ names)) as [Ha|Ha]; [by apply (HinN _ a)|].
        left. destruct (Hmiss a _ Hpa Ha) as [-> ->]. done.
    + intros q Hq. apply HoutN. intros n _ Hpn. apply Hq.
      etrans; [by apply prefix_app_r|done].
    + exists ws. split_and!; [done| |].
      * intros c (n & _ & Hpn & Hch)%Hsound. split; [|done].
        etrans; [by apply prefix_app_r|done].
      * intros Hr c ([k Hk] & Hch).
        destruct Hch as (m' & content' & Hq & Hrest).
        destruct k as [|a k].
        { rewrite app_nil_r in Hk. rewrite Hk, Hp in Hq. done. }
        assert (p ++ [a] `prefix_of` wPath c) as Hpa.
        { exists k. by rewrite Hk, <- (assoc_L (++)). }
        destruct (decide (a ∈ names)) as [Ha|Ha].
        -- apply (Hcomp Hr c a Ha). split; [done|]. eauto.
        -- destruct (Hmiss a _ Hpa Ha) as [_ Hn]. by rewrite Hn in Hq.
Qed.

(** The rewrite returns, given fuel for the depth of the store; it fails
    when the root cannot be examined or a read or write fails. *)
Lemma replaceModuleInFiles_spec depth dir w :
  parentsAreDirs (files w) ->
  (forall q, is_Some (files w !! q) -> length q < depth) ->
  exists r w',
    replaceModuleInFiles env depth dir old new w = Some (r, w')
    /\ (r = None -> is_Some (files w !! dir))
    /\ attempted old new dir r w w'.
Proof.
  intros Hwf Hb. unfold replaceModuleInFiles, filepath.Walk.
  destruct (os.Stat env (files w) dir) as [err|info] eqn:Hst.
  { rewrite ?replaceVisit_error. exists (Some err), w.
    split_and!; [done..|apply attempted_failed]. }
  apply Stat_inr in Hst as (_ & node & Hnode & ->).
  destruct (walk_spec depth dir node w Hwf Hnode) as (r & w' & -> & Hw).
  { intros q Hq _. specialize (Hb q Hq). lia. }
  exists r, w'. split_and!; [done|eauto|done].
Qed.

(** *** A walk changes no kind and no mode *)

Lemma walkNames_meta rec p names :
  (forall q info w r w', rec q info w = Some (r, w') ->
                         sameMeta (files w) (files w')) ->
  forall w r w',
    filepath.walkNames env rec (replaceVisit env old new) p names w
    = Some (r, w') ->
    sameMeta (files w) (files w').
Proof.
  intros Hrec. induction names as [|a names IH]; intros w r w'; simpl.
  { by intros [= <- <-]. }
  destruct (os.Stat env (files w) (p ++ [a])) as [err|info].
  { rewrite ?replaceVisit_error. by intros [= <- <-]. }
  destruct (rec (p ++ [a]) info w) as [[[e|] wa]|] eqn:Hr; [| |done].
  - intros [= <- <-]. by eapply Hrec.
  - intros H%IH. eapply sameMeta_trans; [by eapply Hrec|done].
Qed.

Lemma walk_meta depth p info w r w' :
  filepath.walk env depth (replaceVisit env old new) p info w = Some (r, w') ->
  sameMeta (files w) (files w').
Proof.
  revert p info w r w'. induction depth as [|depth IH]; intros p info w r w';
    [done|].
  rewrite walk_S. destruct (negb (IsDir info)).
  { intros H%(inj Some). by eapply replaceVisit_meta. }
  destruct (os.readDirNames env (files w) p) as [err|names].
  { intros H%(inj Some). by eapply replaceVisit_meta. }
  destruct (replaceVisit env old new p (Some info) None w) as [[e|] w1] eqn:Hv.
  - intros [= <- <-]. by eapply replaceVisit_meta.
  - intros H%(walkNames_meta _ _ _ IH).
    eapply sameMeta_trans; [by eapply replaceVisit_meta|done].
Qed.

(** *** A second walk *)

(** Where the first walk succeeded, a walk over a store with the same
    kinds and modes, in which nothing is left to replace, succeeds and
    changes nothing. *)
Lemma walk_again depth p info w w' v :
  Name info = os.baseName p ->
  filepath.walk env depth (replaceVisit env old new) p info w = Some (None, w') ->
  sameMeta (files w) (files v) ->
  (forall q m c, files v !! q = Some (File m c) -> p `prefix_of` q ->
                 rewritable (os.baseName q) -> ReplaceAll c old new = c) ->
  filepath.walk env depth (replaceVisit env old new) p info v = Some (None, v).
Proof.
  revert p info w w' v.
  induction depth as [|depth IH]; intros p info w w' v Hname; [done|].
  rewrite !walk_S. destruct (IsDir info) eqn:Hdir; simpl negb; cbv iota.
  - intros Hrun Hmeta Hv. rewrite (readDirNames_meta (files w)) by done.
    destruct (os.readDirNames env (files w) p) as [err|names]; [done|].
    unfold replaceVisit at 1. unfold replaceVisit at 1 in Hrun.
    rewrite Hdir in *. clear Hdir Hname.
    revert w Hrun Hmeta. induction names as [|a names IHn]; intros w Hrun Hmeta;
      simpl in *; [done|].
    rewrite (Stat_meta (files w)) by done.
    destruct (os.Stat env (files w) (p ++ [a])) as [err|i] eqn:Hst; [done|].
    destruct (filepath.walk env depth _ (p ++ [a]) i w) as [[[e|] wa]|] eqn:Hw;
      [done| |done].
    rewrite (IH (p ++ [a]) i w wa v); [| |done|done|].
    + apply (IHn wa); [done|].
      eapply sameMeta_trans; [|done]. apply sameMeta_sym. by eapply walk_meta.
    + apply Stat_inr in Hst as (_ & n & _ & ->). done.
    + intros q m c Hq Hpre. apply (Hv q m c Hq).
      etrans; [by apply prefix_app_r|done].
  - intros Hrun%(inj Some) Hmeta Hv. f_equal.
    unfold replaceVisit in *. rewrite Hdir in *.
    destruct (negb (HasSuffix (Name info) ".go")
              && negb (Name info =? "go.mod")%string) eqn:Hf; [done|].
    destruct (os.ReadFile env (files w) p) as [e|content] eqn:Hrf; [done|].
    destruct (ReadFile_meta _ _ _ _ Hmeta Hrf) as (m & c & Hc & ->).
    rewrite (Hv p m c Hc); [by rewrite String.eqb_refl|done|].
    unfold rewritable, ends_with. rewrite <- HasSuffix_iff, <- Hname.
    rewrite <- negb_orb in Hf. apply negb_false_iff, orb_true_iff in Hf.
    by rewrite String.eqb_eq in Hf.
Qed.

Lemma rewritable_iff name :
  rewritable name <->
  HasSuffix name ".go" || (name =? "go.mod")%string = true.
Proof.
  unfold rewritable, ends_with. rewrite <- HasSuffix_iff, orb_true_iff.
  by rewrite String.eqb_eq.
Qed.



(** *** A walk that is let through *)







End RewriteFacts.

(** ** The claims about the Module Rewriter *)


(** C10: the rewrite changes no mode: every node has after the rewrite the
    mode it had before, and every write passes the mode the file has. *)
Theorem rewrite_preserves_modes env depth dir old new fs :
  wellFormed fs = true ->
  depthBound fs <= depth ->
  exists r fs' ws,
    replaceModuleInFiles env depth dir old new (mkWorld fs [])
    = Some (r, mkWorld fs' ws)
    /\ (forall q, os.nodeMode <$> fs' !! q = os.nodeMode <$> fs !! q)
    /\ (forall c, c ∈ ws ->
                  exists content, fs !! wPath c = Some (File (wPerm c) content)).
Proof.
  intros Hwf%wellFormed_parents Hdepth.
  destruct (replaceModuleInFiles_spec env old new depth dir (mkWorld fs []) Hwf)
    as (r & [fs' ws'] & Hrun & Hr & Hin & Hout & ws & Hws & Hsound & Hcomp).
  { intros q Hq%depthBound_lt. simpl in *. lia. }
  simpl in *. subst ws'. exists r, fs', ws. split_and!; [done| |].
  - intros q. destruct (decide (dir `prefix_of` q)) as [Hpre|Hpre].
    + destruct (Hin q Hpre) as [->|[_ ->]]; [|done].
      destruct (fs !! q); [|done]. simpl. by rewrite rewritten_mode.
    + by rewrite Hout.
  - intros c (_ & m & content & Hq & _ & _ & ->)%Hsound. eauto.
Qed.

(** C6, as the code has it: when after a successful first run no rewritten
    file contains the old module string, a second run with the same
    arguments succeeds, leaves every content as it is and writes nothing. *)
Theorem rewrite_twice_noop env depth dir old new fs fs1 ws1 :
  wellFormed fs = true ->
  depthBound fs <= depth ->
  replaceModuleInFiles env depth dir old new (mkWorld fs [])
  = Some (None, mkWorld fs1 ws1) ->
  (forall q m content,
     fs1 !! q = Some (File m content) -> dir `prefix_of` q ->
     rewritable (os.baseName q) -> Index content old = None) ->
  replaceModuleInFiles env depth dir old new (mkWorld fs1 ws1)
  = Some (None, mkWorld fs1 ws1).
Proof.
  intros _ _ Hrun1 Hnone. unfold replaceModuleInFiles, filepath.Walk in *.
  simpl in *.
  destruct (os.Stat env fs dir) as [err|info] eqn:Hst; [done|].
  pose proof (walk_meta _ _ _ _ _ _ _ _ _ Hrun1) as Hmeta. simpl in Hmeta.
  rewrite (Stat_meta env fs fs1), Hst by done.
  eapply walk_again; [|done|done|].
  - apply Stat_inr in Hst as (_ & n & _ & ->). done.
  - intros q m c Hq Hpre Hname. simpl in Hq. apply ReplaceAll_absent. eauto.
Qed.

(** ** Facts about the copy loop of [main] *)

Lemma copyPackages_app env depth flags m mdir pre post st :
  copyPackages env depth flags m mdir (pre ++ post) st =
  match copyPackages env depth flags m mdir pre st with
  | Some st1 => copyPackages env depth flags m mdir post st1
  | None => None
  end.
Proof.
  revert st. induction pre as [|dep pre IH]; intros st; simpl; [done|].
  destruct (inModule dep m); simpl; [|apply IH].
  destruct (copyDir _ _ _ _ _) as [[[]]|]; [apply IH..|done].
Qed.

Lemma calls_say flag msg st : calls (say flag msg st) = calls st.
Proof. by destruct flag. Qed.

Lemma copied_say flag msg st : copied (say flag msg st) = copied st.
Proof. by destruct flag. Qed.

Lemma errorsPrinted_snoc l msg :
  errorsPrinted (l ++ [msg]) = errorsPrinted l + (if isError msg then 1 else 0).
Proof.
  unfold errorsPrinted. rewrite List.filter_app, length_app. simpl.
  by destruct (isError msg).
Qed.

Lemma errorsPrinted_say flag msg st :
  isError msg = false ->
  errorsPrinted (printed (say flag msg st)) = errorsPrinted (printed st).
Proof.
  intros H. destruct flag; [|done]. simpl. rewrite errorsPrinted_snoc, H. lia.
Qed.

Lemma copyPackages_calls env depth flags m mdir deps st st' :
  copyPackages env depth flags m mdir deps st = Some st' ->
  calls st' =
  calls st ++ ((fun dep => (filepath.Join mdir (relPathOf dep m),
                            filepath.Join (output flags) (relPathOf dep m)))
                 <$> filter (fun dep => inModule dep m = true) deps).
Proof.
  revert st. induction deps as [|dep deps IH]; intros st; simpl.
  - intros [= <-]. by rewrite app_nil_r.
  - destruct (inModule dep m) eqn:Hin; simpl.
    + rewrite filter_cons_True by done.
      destruct (copyDir _ _ _ _ _) as [[[e|] fs']|]; [| |done];
        intros ->%IH; simpl; by rewrite calls_say, <- (assoc_L (++)).
    + rewrite filter_cons_False by congruence. intros ->%IH. by rewrite calls_say.
Qed.

(** The loop returns: every [copyDir] does, given fuel above the longest
    path the system accepts. *)
Lemma copyPackages_returns env depth flags m mdir deps st :
  pathMax env + 2 <= depth ->
  exists st', copyPackages env depth flags m mdir deps st = Some st'.
Proof.
  intros Hd. revert st. induction deps as [|dep deps IH]; intros st; simpl;
    [by eexists|].
  destruct (inModule dep m); simpl; [|apply IH].
  destruct (copyDir_returns env depth
              (filepath.Join mdir (relPathOf dep m))
              (filepath.Join (output flags) (relPathOf dep m))
              (store (say (verbose flags)
                        (Copying (filepath.Join mdir (relPathOf dep m))
                           (filepath.Join (output flags) (relPathOf dep m)))
                        st)) Hd) as [[[e|] g] ->]; apply IH.
Qed.

(** Every in-module dependency is either counted in [copied] or reported
    as an error, never both. *)
Lemma copyPackages_tally env depth flags m mdir deps st st' :
  copyPackages env depth flags m mdir deps st = Some st' ->
  copied st' + errorsPrinted (printed st') =
  copied st + errorsPrinted (printed st)
  + length (filter (fun dep => inModule dep m = true) deps).
Proof.
  revert st. induction deps as [|dep deps IH]; intros st; simpl.
  - intros [= <-]. lia.
  - destruct (inModule dep m) eqn:Hin; simpl.
    + rewrite filter_cons_True by done.
      destruct (copyDir _ _ _ _ _) as [[[e|] fs']|]; [| |done];
        intros ->%IH; simpl; rewrite ?errorsPrinted_snoc, copied_say,
          errorsPrinted_say by done; simpl; lia.
    + rewrite filter_cons_False by congruence. intros ->%IH.
      rewrite copied_say, errorsPrinted_say by done. lia.
Qed.

(** ** The claims about the Tree Copier and the copy loop *)


(** C9, as the code has it: [copyDir] returns, and removes nothing that
    existed.  When [MkdirAll] fails its error is returned with what it
    made.  Once it has succeeded the destination directory is there (made
    with the mode of the source less the umask when it was missing) and
    stays; a failure to read the source leaves exactly that state, and a
    failure in the loop leaves the state reached when the failing entry
    stopped, with everything copied before it. *)
Theorem copyDir_not_atomic env depth src dst fs info :
  pathMax env + 2 <= depth ->
  os.Stat env fs src = inr info ->
  exists r g,
    copyDir env depth src dst fs = Some (r, g)
    /\ grows fs g
    /\ (forall e fs1,
          os.MkdirAll env dst (Mode info) fs = (Some e, fs1) ->
          r = Some e /\ g = fs1)
    /\ (forall fs1,
          os.MkdirAll env dst (Mode info) fs = (None, fs1) ->
          (exists m, fs1 !! dst = Some (Dir m) /\ g !! dst = Some (Dir m)
                     /\ (fs !! dst = None ->
                         m = N.ldiff (Mode info) (umask env)))
          /\ grows fs1 g
          /\ match os.ReadDir env fs1 src with
             | inl e' => r = Some e' /\ g = fs1
             | inr entries =>
                 forall e, r = Some e ->
                   exists done bad rest h,
                     entries = done ++ bad :: rest
                     /\ copyEntries env (copyDir env (pred depth)) src dst done fs1
                        = Some (None, h)
                     /\ copyEntries env (copyDir env (pred depth)) src dst [bad] h
                        = Some (Some e, g)
                     /\ grows h g
                     /\ forall q, ~ nested q (dst ++ [Name bad]) ->
                                  g !! q = h !! q
             end).
Proof.
  intros Hd Hstat.
  destruct (copyDir_returns env depth src dst fs Hd) as [[r g] Hrun].
  exists r, g. split; [done|]. split; [by eapply copyDir_grows|].
  destruct depth as [|depth]; [lia|]. rewrite copyDir_S, Hstat in Hrun.
  simpl pred. split.
  - intros e fs1 Hmk. rewrite Hmk in Hrun. by injection Hrun as <- <-.
  - intros fs1 Hmk. rewrite Hmk in Hrun.
    pose proof (MkdirAll_spec _ _ _ _ _ _ Hmk) as (_ & _ & Hdir).
    destruct (Hdir eq_refl) as (_ & m & Hm & Hnew).
    assert (grows fs1 g) as Hg.
    { destruct (os.ReadDir env fs1 src);
        [injection Hrun as <- <-; apply grows_refl|].
      eapply copyEntries_grows; [by apply copyDir_grows|done]. }
    split_and!; [|done|].
    + exists m. split_and!; [done| |done].
      specialize (Hg dst). by rewrite Hm in Hg.
    + destruct (os.ReadDir env fs1 src) as [e'|entries];
        [by injection Hrun as <- <-|].
      intros e ->.
      apply copyEntries_failed in Hrun as (done & bad & rest & h & -> & Hdn & Hb).
      exists done, bad, rest, h. split_and!; [done..| |].
      * eapply copyEntries_grows; [by apply copyDir_grows|done].
      * intros q Hq.
        eapply (copyEntries_frame env (copyDir env depth)
                  (copyDir_frame env depth) src dst [bad] h (Some e) g);
          [done|].
        by intros b ->%list_elem_of_singleton.
Qed.

(** C7, as the code has it: inside [copyDir] the error of a nested
    directory copy or of a file copy ends the invocation at once and is
    returned as it is, with the state reached; in the copy loop of [main] a
    failed [copyDir] is reported, is not counted in [copied], and the loop
    goes on with the remaining packages: it returns, and every in-module
    dependency is either counted or reported. *)
Theorem error_handling_asymmetry :
  (forall env depth src dst fs info fs1 done bad rest h e g,
     os.Stat env fs src = inr info ->
     os.MkdirAll env dst (Mode info) fs = (None, fs1) ->
     os.ReadDir env fs1 src = inr (done ++ bad :: rest) ->
     copyEntries env (copyDir env depth) src dst done fs1 = Some (None, h) ->
     (IsDir bad = true /\ shouldSkipDir (Name bad) = false
      /\ copyDir env depth (src ++ [Name bad]) (dst ++ [Name bad]) h
         = Some (Some e, g))
     \/ (IsDir bad = false /\ shouldCopyFile (Name bad) = true
         /\ copyFile env (src ++ [Name bad]) (dst ++ [Name bad]) h = (Some e, g)) ->
     copyDir env (S depth) src dst fs = Some (Some e, g))
  /\ (forall env depth flags m mdir pre dep post st st1 e g,
        copyPackages env depth flags m mdir pre st = Some st1 ->
        inModule dep m = true ->
        let relPath := relPathOf dep m in
        let srcDir := filepath.Join mdir relPath in
        let dstDir := filepath.Join (output flags) relPath in
        let st2 := say (verbose flags) (Copying srcDir dstDir) st1 in
        copyDir env depth srcDir dstDir (store st2) = Some (Some e, g) ->
        copyPackages env depth flags m mdir (pre ++ dep :: post) st =
        copyPackages env depth flags m mdir post
          {| store := g; copied := copied st1;
             printed := printed st2 ++ [ErrorCopying relPath e];
             calls := calls st1 ++ [(srcDir, dstDir)] |})
  /\ (forall env depth flags m mdir deps st,
        pathMax env + 2 <= depth ->
        exists st',
          copyPackages env depth flags m mdir deps st = Some st'
          /\ copied st' + errorsPrinted (printed st') =
             copied st + errorsPrinted (printed st)
             + length (filter (fun dep => inModule dep m = true) deps)).
Proof.
  split_and!.
  - intros env depth src dst fs info fs1 done bad rest h e g
      Hstat Hmk Hrd Hdone Hbad.
    rewrite copyDir_S, Hstat, Hmk, Hrd, copyEntries_app, Hdone. simpl.
    destruct Hbad as [(-> & -> & ->)|(-> & -> & ->)]; done.
  - intros env depth flags m mdir pre dep post st st1 e g Hpre Hin
      relPath srcDir dstDir st2 Hfail.
    rewrite copyPackages_app, Hpre. simpl. rewrite Hin. simpl.
    fold relPath srcDir dstDir st2. rewrite Hfail.
    subst st2. by destruct (verbose flags).
  - intros env depth flags m mdir deps st Hd.
    destruct (copyPackages_returns env depth flags m mdir deps st Hd) as [st' H].
    exists st'. split; [done|]. by apply (copyPackages_tally env depth flags m mdir).
Qed.

(** C1 (the code at the failing input): with module-only mode off, an
    external dependency is still skipped; [copyDir] is not called and the
    store is untouched. *)
Theorem external_skipped_without_module_only :
  let flags := mkFlags "./responses" ["out"] false "" false in
  let st := mkLoop {[ [] := Dir 493%N ]} 0 [] [] in
  moduleOnly flags = false
  /\ inModule "golang.org/x/text" "github.com/x/foo" = false
  /\ copyPackages openEnv 42 flags "github.com/x/foo" ["src"]
       ["golang.org/x/text"] st
     = Some st.
Proof. by vm_compute. Qed.

(** ** Further properties of the Tree Copier and the copy loop *)

Section CopyMore.

Variable env : Env.

Implicit Types (fs g h : FS) (p q src dst : list string).

(** The loop writes only where an entry that passes the filters is copied. *)
Lemma copyEntries_frame_active rec src dst entries fs r g :
  (forall s d fs r g, rec s d fs = Some (r, g) ->
                      forall q, ~ nested q d -> g !! q = fs !! q) ->
  copyEntries env rec src dst entries fs = Some (r, g) ->
  forall q,
    (forall e, e ∈ entries ->
               (if IsDir e then negb (shouldSkipDir (Name e))
                else shouldCopyFile (Name e)) = true ->
               ~ nested q (dst ++ [Name e])) ->
    g !! q = fs !! q.
Proof.
  intros rec_frame. revert fs. induction entries as [|e entries IH]; intros fs; simpl.
  - by intros [= <- <-].
  - intros H q Hq.
    assert (forall e', e' ∈ entries ->
              (if IsDir e' then negb (shouldSkipDir (Name e'))
               else shouldCopyFile (Name e')) = true ->
              ~ nested q (dst ++ [Name e'])) as Hq'
      by (intros e' He'; apply Hq; by right).
    specialize (Hq e). destruct (IsDir e).
    + destruct (shouldSkipDir (Name e)); [by eapply IH|].
      assert (~ nested q (dst ++ [Name e])) as Hqe by (apply Hq; [by left|done]).
      destruct (rec _ _ fs) as [[[err|] fs']|] eqn:Hrec; [| |done].
      * injection H as <- <-. by eapply rec_frame.
      * rewrite (IH fs') by done. by eapply rec_frame.
    + destruct (shouldCopyFile (Name e)); [|by eapply IH].
      assert (~ nested q (dst ++ [Name e])) as Hqe by (apply Hq; [by left|done]).
      assert (q <> dst ++ [Name e]) as Hne by (intros ->; apply Hqe; by left).
      destruct (copyFile env _ _ fs) as [[err|] fs'] eqn:Hcp;
        apply copyFile_spec in Hcp as (Hg & Hf & _).
      * injection H as <- <-. by apply Hf.
      * rewrite (IH fs') by done. by apply Hf.
Qed.

(** In a mirrored destination every source file in a chain of directories
    that are not skipped has its content at the same place below the
    destination. *)
Lemma mirrored_deep g name m data k :
  shouldCopyFile name = true ->
  Forall (fun d => shouldSkipDir d = false) k ->
  forall depth src dst,
    mirrored env depth src dst g ->
    (forall i, i < length k ->
               exists m', g !! (src ++ take (S i) k) = Some (Dir m')) ->
    g !! (src ++ k ++ [name]) = Some (File m data) ->
    exists m', g !! (dst ++ k ++ [name]) = Some (File m' data).
Proof.
  intros Hname Hk. induction Hk as [|c k Hc Hk IH]; intros depth src dst Hm Hdirs Hf.
  - destruct depth as [|depth]; [done|]. destruct Hm as (_ & _ & _ & _ & Hm).
    specialize (Hm name). simpl in *. rewrite Hf in Hm.
    by destruct (Hm Hname) as (_ & _ & _ & ?).
  - destruct depth as [|depth]; [done|]. destruct Hm as (_ & _ & _ & _ & Hm).
    specialize (Hm c). destruct (Hdirs 0) as [m' Hd]; [simpl; lia|].
    simpl in Hd. rewrite take_0 in Hd. rewrite Hd in Hm.
    specialize (IH depth (src ++ [c]) (dst ++ [c]) (Hm Hc)).
    rewrite <- !(assoc_L (++)) in IH. simpl in IH. apply IH; [|done].
    intros i Hi. destruct (Hdirs (S i)) as [m'' Hd']; [simpl; lia|].
    exists m''. by rewrite <- Hd', <- (assoc_L (++)).
Qed.

Lemma dirs_on_the_way fs p k :
  parentsAreDirs fs ->
  is_Some (fs !! (p ++ k)) ->
  forall i, i < length k -> length k <> S i ->
            exists m, fs !! (p ++ take (S i) k) = Some (Dir m).
Proof.
  intros Hwf. induction k as [|c k IH] using rev_ind; intros Hk i Hi Hne;
    [simpl in Hi; lia|].
  rewrite length_app in Hi, Hne. simpl in Hi, Hne.
  rewrite (assoc_L (++)) in Hk. destruct (Hwf _ _ Hk) as [m Hm].
  rewrite take_app_le by lia.
  destruct (decide (length k = S i)) as [E|E].
  - exists m. by rewrite <- E, firstn_all.
  - apply IH; [eauto|lia|done].
Qed.

End CopyMore.

(** X1: [copyDir] returns, whatever the store and the paths, and its result
    does not depend on the bound given to the recursion once this is above
    the longest path the system accepts. *)
Theorem copyDir_terminates env depth depth' src dst fs :
  pathMax env + 2 <= depth -> depth <= depth' ->
  exists res,
    copyDir env depth src dst fs = Some res
    /\ copyDir env depth' src dst fs = Some res.
Proof.
  intros Hd Hle. destruct (copyDir_returns env depth src dst fs Hd) as [res H].
  exists res. split; [done|]. by eapply copyDir_depth_mono.
Qed.

(** X2: [copyDir] removes nothing, and changes nothing outside the
    destination and the way to it; when source and destination do not
    overlap, the source tree is left as it was. *)
Theorem copyDir_touches_destination_only env depth src dst fs r g :
  copyDir env depth src dst fs = Some (r, g) ->
  grows fs g
  /\ (forall q, ~ nested q dst -> g !! q = fs !! q)
  /\ (~ nested src dst -> forall q, src `prefix_of` q -> g !! q = fs !! q).
Proof.
  intros H. split_and!.
  - by eapply copyDir_grows.
  - by eapply copyDir_frame.
  - intros Hn q Hq. eapply copyDir_frame; [done|]. intros [Hqd|Hdq]; apply Hn.
    + left. by etrans.
    + destruct (prefix_weak_total _ _ _ Hq Hdq); [by left|by right].
Qed.

(** X3: after a [copyDir] without error into a destination that does not
    overlap the source, every source file whose name passes
    [shouldCopyFile], in a chain of directories none of which
    [shouldSkipDir] skips, has its content at the same relative path below
    the destination. *)
Theorem copyDir_copies_sources env depth src dst fs g k name m data :
  wellFormed fs = true ->
  ~ nested src dst ->
  copyDir env depth src dst fs = Some (None, g) ->
  Forall (fun d => shouldSkipDir d = false) k ->
  shouldCopyFile name = true ->
  fs !! (src ++ k ++ [name]) = Some (File m data) ->
  exists m', g !! (dst ++ k ++ [name]) = Some (File m' data).
Proof.
  intros Hwf%wellFormed_parents Hn Hrun Hk Hname Hf.
  assert (forall q, src `prefix_of` q -> g !! q = fs !! q) as Hsrc.
  { intros q Hq. eapply copyDir_frame; [done|]. intros [Hqd|Hdq]; apply Hn.
    - left. by etrans.
    - destruct (prefix_weak_total _ _ _ Hq Hdq); [by left|by right]. }
  eapply (mirrored_deep env g name m data k Hname Hk depth src dst).
  - by eapply copyDir_mirrors.
  - intros i Hi. rewrite Hsrc by (by apply prefix_app_r).
    destruct (dirs_on_the_way fs src (k ++ [name]) Hwf) with (i := i)
      as [m' Hm'].
    + rewrite Hf. eauto.
    + rewrite length_app. simpl. lia.
    + rewrite length_app. simpl. lia.
    + exists m'. by rewrite take_app_le in Hm' by lia.
  - rewrite Hsrc; [done|]. by apply prefix_app_r.
Qed.

(** X4: [copyDir] writes nothing at or below the destination of a name that
    is filtered out: a directory that [shouldSkipDir] skips, a file that
    [shouldCopyFile] refuses, or a name the source does not have. *)
Theorem copyDir_skips_filtered env depth src dst fs r g name k :
  ~ nested src dst ->
  copyDir env depth src dst fs = Some (r, g) ->
  match fs !! (src ++ [name]) with
  | Some (Dir _) => shouldSkipDir name = true
  | Some (File _ _) => shouldCopyFile name = false
  | None => True
  end ->
  g !! (dst ++ name :: k) = fs !! (dst ++ name :: k).
Proof.
  intros Hn Hrun Hflt. destruct depth as [|depth]; [done|].
  rewrite copyDir_S in Hrun.
  destruct (os.Stat env fs src) as [e|info]; [by injection Hrun as <- <-|].
  assert (~ dst ++ name :: k `prefix_of` dst) as Hlong.
  { intros H%prefix_length. rewrite length_app in H. simpl in H. lia. }
  destruct (os.MkdirAll env dst _ fs) as [[e|] fs1] eqn:Hmk;
    apply MkdirAll_spec in Hmk as (_ & Hfs1 & _).
  { injection Hrun as <- <-. by apply Hfs1. }
  destruct (os.ReadDir env fs1 src) as [e|entries] eqn:Hrd.
  { injection Hrun as <- <-. by apply Hfs1. }
  rewrite <- Hfs1 by done.
  eapply (copyEntries_frame_active env (copyDir env depth));
    [apply copyDir_frame|done|].
  intros e He Hact Hnest.
  apply ReadDir_inr in Hrd as (names & -> & Hnames).
  apply list_elem_of_fmap in He as (n & -> & Hin).
  apply readDirNames_inr in Hnames as (_ & _ & _ & Hmem).
  apply Hmem in Hin as [node Hnode].
  rewrite Name_entryOf in Hact, Hnest.
  assert (n = name) as ->.
  { assert (dst ++ [name] `prefix_of` dst ++ name :: k) as Hpre.
    { exists k. by rewrite <- (assoc_L (++)). }
    destruct Hnest as [H|H].
    - symmetry. apply (snoc_prefix_same dst name n (dst ++ [n])); [by etrans|done].
    - by apply (snoc_prefix_same dst n name (dst ++ name :: k)). }
  unfold os.entryOf in Hact. rewrite Hnode in Hact.
  assert (fs1 !! (src ++ [name]) = fs !! (src ++ [name])) as Hsame.
  { apply Hfs1. intros H. apply Hn. left. etrans; [by apply prefix_app_r|done]. }
  rewrite <- Hsame, Hnode in Hflt. destruct node; simpl in Hact.
  - by rewrite Hflt in Hact.
  - by rewrite Hflt in Hact.
Qed.

(** X5: a [copyFile] without error leaves the content of the source at the
    destination, whose mode is the one it had or, when it is created, the
    mode of the source less the umask; no other path changes.  When source
    and destination are the same path the file is left empty: it is
    truncated before it is read. *)
Theorem copyFile_result env src dst fs g :
  copyFile env src dst fs = (None, g) ->
  exists m data,
    fs !! src = Some (File m data)
    /\ (forall q, q <> dst -> g !! q = fs !! q)
    /\ (src <> dst ->
        g !! dst
        = Some (File (match fs !! dst with
                      | Some n => os.nodeMode n
                      | None => N.ldiff m (umask env)
                      end) data))
    /\ (src = dst -> g !! dst = Some (File m "")).
Proof.
  unfold copyFile. destruct (os.Open env fs src) as [e|n] eqn:Hsrc; [done|].
  apply Open_inr in Hsrc as (Hres & Hsrc & Ha).
  destruct (os.OpenFileTrunc env dst _ fs) as [[e|] fs1] eqn:Hopen; [done|].
  apply OpenFileTrunc_spec in Hopen as (_ & Hf & _ & Hd).
  destruct (Hd eq_refl) as (_ & m' & -> & Hm').
  unfold os.readData, os.writeData. rewrite lookup_insert_eq.
  destruct (decide (src = dst)) as [->|Hne].
  - rewrite lookup_insert_eq. intros [= <-]. rewrite Hsrc in Hm'.
    destruct n as [m data|m]; [|done]. destruct Hm' as [-> _].
    exists m, data. rewrite insert_insert_eq.
    split_and!; [done| |done|by rewrite lookup_insert_eq].
    intros q Hq. by rewrite lookup_insert_ne.
  - rewrite lookup_insert_ne, Hsrc by done.
    destruct n as [m data|m]; [|done]. intros [= <-].
    exists m, data. rewrite insert_insert_eq.
    split_and!; [done| | |done].
    + intros q Hq. by rewrite lookup_insert_ne.
    + intros _. rewrite lookup_insert_eq. simpl in Hm'.
      destruct (fs !! dst) as [[m0 d0|m0]|]; [|done|by subst].
      by destruct Hm' as [-> _].
Qed.

(** X6: when no dependency starts with the module path nothing is copied:
    the loop returns with the store, the counter and the calls as they
    were, and prints one line for each dependency in verbose mode only. *)
Theorem copyPackages_external_only env depth flags m mdir deps st :
  Forall (fun dep => inModule dep m = false) deps ->
  exists st',
    copyPackages env depth flags m mdir deps st = Some st'
    /\ store st' = store st
    /\ copied st' = copied st
    /\ calls st' = calls st
    /\ printed st'
       = printed st ++ (if verbose flags then SkippingExternal <$> deps else []).
Proof.
  intros Hall. revert st. induction Hall as [|dep deps Hdep Hall IH]; intros st.
  - exists st. simpl. split_and!; try done. destruct (verbose flags);
      by rewrite app_nil_r.
  - simpl. rewrite Hdep. simpl.
    destruct (IH (say (verbose flags) (SkippingExternal dep) st))
      as (st' & -> & Hs & Hc & Hcalls & Hp).
    exists st'. split; [done|]. rewrite Hs, Hc, Hcalls, Hp.
    destruct (verbose flags); simpl; split_and!; try done.
    by rewrite <- (assoc_L (++)).
Qed.

(** X7: the dependency that is the module itself has the empty relative
    path, so its package is copied from the module directory into the
    output directory itself. *)
Theorem root_package_copied_to_output env depth flags m mdir st :
  pathMax env + 2 <= depth ->
  exists st',
    copyPackages env depth flags m mdir [m] st = Some st'
    /\ calls st' = calls st ++ [(mdir, output flags)].
Proof.
  intros Hd.
  destruct (copyPackages_returns env depth flags m mdir [m] st Hd) as [st' H].
  exists st'. split; [done|].
  apply copyPackages_calls in H. rewrite H.
  assert (inModule m m = true) as Hin.
  { apply HasPrefix_iff. exists "". by rewrite sapp_nil_r. }
  rewrite filter_cons_True by done. rewrite filter_nil. simpl.
  assert (relPathOf m m = "") as ->; [|done].
  unfold relPathOf.
  assert (TrimPrefix m m = "") as ->; [|done].
  rewrite <- (sapp_nil_r m) at 1. apply TrimPrefix_app.
Qed.

(** ** The tests of the repository, evaluated on the model *)

Example TestShouldCopyFile :
  map shouldCopyFile
    ["main.go"; "utils.go"; "main_test.go"; "utils_test.go"; "go.mod"; "go.sum";
     "LICENSE"; "README.md"; "notes.txt"; "config.json"; "config.yaml"]
  = [true; true; false; false; true; true; true; true; false; false; false].
Proof. by vm_compute. Qed.

Example TestCopyFile :
  (let (r, g) := copyFile ownerEnv ["source.go"] ["dest.go"] testCopyFileStore in
   (r, os.ReadFile ownerEnv g ["dest.go"]))
  = (None, inr "package main").
Proof. by_evaluation. Qed.

Example TestCopyDir :
  match copyDir ownerEnv 2 ["tmp"; "src"] ["tmp"; "dst"] testCopyDirStore with
  | Some (r, g) =>
      Some (r, g !! ["tmp"; "dst"; "main.go"],
            g !! ["tmp"; "dst"; "main_test.go"],
            g !! ["tmp"; "dst"; "notes.txt"])
  | None => None
  end
  = Some (None, Some (File 420%N "package main"), None, None).
Proof. by_evaluation. Qed.

Example TestReplaceModuleInFiles :
  match replaceModuleInFiles ownerEnv 3 ["tmp"] "github.com/openai/openai-go/v3"
          "github.com/myorg/myproject" (mkWorld testReplaceStore []) with
  | Some (r, w) =>
      Some (r, files w !! ["tmp"; "go.mod"], files w !! ["tmp"; "main.go"],
            files w !! ["tmp"; "notes.txt"])
  | None => None
  end
  = Some (None,
          Some (File 420%N "module github.com/myorg/myproject"),
          Some (File 420%N "import github.com/myorg/myproject/responses"),
          Some (File 420%N "Contains github.com/openai/openai-go/v3 reference")).
Proof. by_evaluation. Qed.

(** ** Runs in which the claims as stated fail *)


(** C6, as stated, fails: with a new module string that contains the old
    one, the first run leaves an occurrence of the old string and the second
    run rewrites and writes the file again. *)
Lemma rewrite_twice_counterexample :
  let old := "example.com/m" in
  let new := "example.com/m/v2" in
  let fs : FS :=
    {[ [] := Dir 493%N; ["go.mod"] := File 420%N "module example.com/m" ]} in
  exists fs1 ws1 fs2 ws2,
    wellFormed fs = true
    /\ replaceModuleInFiles ownerEnv 2 [] old new (mkWorld fs [])
       = Some (None, mkWorld fs1 ws1)
    /\ replaceModuleInFiles ownerEnv 2 [] old new (mkWorld fs1 ws1)
       = Some (None, mkWorld fs2 ws2)
    /\ fs1 !! ["go.mod"] = Some (File 420%N "module example.com/m/v2")
    /\ Index "module example.com/m/v2" old = Some 7
    /\ fs2 !! ["go.mod"] = Some (File 420%N "module example.com/m/v2/v2")
    /\ ws2 = ws1 ++ [mkWrite ["go.mod"] "module example.com/m/v2/v2" 420%N].
Proof.
  intros old new fs.
  exists {[ [] := Dir 493%N; ["go.mod"] := File 420%N "module example.com/m/v2" ]},
    [mkWrite ["go.mod"] "module example.com/m/v2" 420%N],
    {[ [] := Dir 493%N; ["go.mod"] := File 420%N "module example.com/m/v2/v2" ]},
    [mkWrite ["go.mod"] "module example.com/m/v2" 420%N;
     mkWrite ["go.mod"] "module example.com/m/v2/v2" 420%N].
  split_and!; by_evaluation.
Qed.

(** C7, as stated, fails: of three packages the second is missing; its
    failure is reported, the loop goes on, and [copied] counts the two
    packages that were copied, not the failure. *)
Lemma failed_package_counterexample :
  match copyPackages ownerEnv 42 (mkFlags "./sub" ["out"] true "" false)
          "example.com/m" ["m"]
          ["example.com/m/sub"; "example.com/m/missing"; "example.com/m"]
          (mkLoop demoStore 0 [] []) with
  | Some st' => Some (copied st', printed st', calls st')
  | None => None
  end
  = Some (2,
          [ErrorCopying "missing" (mkPathError "stat" ["m"; "missing"] ENOENT)],
          [(["m"; "sub"], ["out"; "sub"]);
           (["m"; "missing"], ["out"; "missing"]);
           (["m"], ["out"])]).
Proof. vm_compute. reflexivity. Qed.


(** C9, as stated, fails: under the umask 022 the destination of a source
    directory of mode 0777 is made with mode 0755; the run then fails on a
    file it may not read, and the directory and the file copied before stay. *)
Lemma copyDir_mode_counterexample :
  os.Stat ownerEnv openDirStore ["src"] = inr (mkFileInfo "src" true 511%N)
  /\ openDirStore !! ["dst"] = None
  /\ copyDir ownerEnv 3 ["src"] ["dst"] openDirStore
     = Some (Some (mkPathError "open" ["src"; "b.go"] EACCES), openDirPartial)
  /\ openDirPartial !! ["dst"] = Some (Dir 493%N)
  /\ openDirPartial !! ["dst"; "a.go"] = Some (File 420%N "package a").
Proof. split_and!; by_evaluation. Qed.

(** ** Concrete runs *)

Lemma nested_witness : ~ nested ["m"] ["out"; "x"].
Proof. intros [[k H]|[k H]]; discriminate. Defined.


(** A check, by evaluation, that no rewritten file of a store contains the
    old string. *)
Lemma no_occurrence_check (dir : list string) (old : string) (fs : FS) :
  map_Forall (fun q n =>
                match n with
                | File _ content =>
                    negb (bool_decide (dir `prefix_of` q)
                          && (HasSuffix (os.baseName q) ".go"
                              || (os.baseName q =? "go.mod")%string))
                    || bool_decide (Index content old = None)
                | Dir _ => true
                end = true) fs ->
  forall q m content,
    fs !! q = Some (File m content) -> dir `prefix_of` q ->
    rewritable (os.baseName q) -> Index content old = None.
Proof.
  intros Hall q m content Hq Hpre Hname%rewritable_iff.
  specialize (Hall q _ Hq). simpl in Hall.
  rewrite Hname in Hall.
  destruct (bool_decide (dir `prefix_of` q)) eqn:Hb.
  - simpl in Hall. by apply bool_decide_eq_true_1 in Hall.
  - by apply bool_decide_eq_false_1 in Hb.
Qed.

Example demoBlocked_run :
  copyDir ownerEnv 42 ["m"] ["out"; "x"] demoBlocked
  = Some (Some (mkPathError "open" ["out"; "x"; "main.go"] EISDIR), demoPartial).
Proof. by_evaluation. Qed.

(** A copy into a directory of the source descends into what it makes,
    until the path is longer than the system accepts; the error is
    returned, with the directories made so far left behind. *)
Example copy_into_itself :
  match copyDir openEnv 42 ["a"] ["a"; "b"] selfStore with
  | Some (Some e, g) =>
      Some (Op e, Err e, g !! ["a"; "b"; "b"; "b"], g !! ["a"; "b"; "x.go"])
  | _ => None
  end
  = Some ("mkdir", ENAMETOOLONG, Some (Dir 493%N), None).
Proof. vm_compute. reflexivity. Qed.


Lemma copyDir_not_atomic_witness :
  exists r g,
    copyDir ownerEnv 42 ["m"] ["out"; "x"] demoBlocked = Some (r, g)
    /\ grows demoBlocked g.
Proof.
  assert (pathMax ownerEnv + 2 <= 42) as Hd by (vm_compute; lia).
  assert (os.Stat ownerEnv demoBlocked ["m"] = inr (mkFileInfo "m" true 488%N))
    as Hst by (vm_compute; reflexivity).
  destruct (copyDir_not_atomic ownerEnv 42 ["m"] ["out"; "x"] demoBlocked
              (mkFileInfo "m" true 488%N) Hd Hst) as (r & g & Hrun & Hg & _).
  exists r, g. split; [exact Hrun|exact Hg].
Defined.

Lemma error_handling_asymmetry_witness :
  copyDir ownerEnv 3 ["m"] ["out"; "x"] demoBlocked
  = Some (Some (mkPathError "open" ["out"; "x"; "main.go"] EISDIR), demoPartial)
  /\ copyPackages ownerEnv 3 (mkFlags "./m" ["out"; "x"] true "" false)
       "example.com/m" ["m"] (["example.com/m"] ++ ["example.com/m/sub"])
       (mkLoop demoBlocked 0 [] [])
     = copyPackages ownerEnv 3 (mkFlags "./m" ["out"; "x"] true "" false)
         "example.com/m" ["m"] ["example.com/m/sub"]
         (mkLoop demoPartial 0
            [ErrorCopying ""
               (mkPathError "open" ["out"; "x"; "main.go"] EISDIR)]
            [(["m"], ["out"; "x"])])
  /\ exists st',
       copyPackages ownerEnv 42 (mkFlags "./m" ["out"; "x"] true "" false)
         "example.com/m" ["m"] ["example.com/m"; "example.com/m/sub"]
         (mkLoop demoBlocked 0 [] []) = Some st'
       /\ copied st' + errorsPrinted (printed st') = 2.
Proof.
  assert (copyDir ownerEnv 3 ["m"] ["out"; "x"] demoBlocked
          = Some (Some (mkPathError "open" ["out"; "x"; "main.go"] EISDIR),
                  demoPartial)) as Hfail.
  { apply (proj1 error_handling_asymmetry ownerEnv 2 ["m"] ["out"; "x"]
             demoBlocked (mkFileInfo "m" true 488%N) demoBlocked
             [mkFileInfo "go.mod" false 420%N]
             (mkFileInfo "main.go" false 420%N)
             [mkFileInfo "main_test.go" false 420%N;
              mkFileInfo "notes.txt" false 420%N;
              mkFileInfo "sub" true 448%N;
              mkFileInfo "vendor" true 448%N]
             demoPartial).
    - vm_compute. reflexivity.
    - by_evaluation.
    - vm_compute. reflexivity.
    - by_evaluation.
    - right. split_and!; [reflexivity|vm_compute; reflexivity|by_evaluation]. }
  split_and!.
  - exact Hfail.
  - apply (proj1 (proj2 error_handling_asymmetry) ownerEnv 3
             (mkFlags "./m" ["out"; "x"] true "" false) "example.com/m" ["m"]
             [] "example.com/m" ["example.com/m/sub"]
             (mkLoop demoBlocked 0 [] []) (mkLoop demoBlocked 0 [] [])).
    + reflexivity.
    + vm_compute. reflexivity.
    + exact Hfail.
  - assert (pathMax ownerEnv + 2 <= 42) as Hd by (vm_compute; lia).
    destruct (proj2 (proj2 error_handling_asymmetry) ownerEnv 42
                (mkFlags "./m" ["out"; "x"] true "" false) "example.com/m" ["m"]
                ["example.com/m"; "example.com/m/sub"]
                (mkLoop demoBlocked 0 [] []) Hd) as (st' & Hrun & Htally).
    exists st'. split; [exact Hrun|exact Htally].
Defined.


Lemma rewrite_preserves_modes_witness :
  wellFormed demoStore = true
  /\ depthBound demoStore <= 4
  /\ exists r fs' ws,
       replaceModuleInFiles ownerEnv 4 ["m"] "example.com/m" "example.org/n"
         (mkWorld demoStore []) = Some (r, mkWorld fs' ws)
       /\ forall q, os.nodeMode <$> fs' !! q = os.nodeMode <$> demoStore !! q.
Proof.
  assert (wellFormed demoStore = true) as Hwf by (vm_compute; reflexivity).
  assert (depthBound demoStore <= 4) as Hd by (vm_compute; lia).
  split_and!; [exact Hwf|exact Hd|].
  destruct (rewrite_preserves_modes ownerEnv 4 ["m"] "example.com/m"
              "example.org/n" demoStore Hwf Hd)
    as (r & fs' & ws & Hrun & Hmode & _).
  exists r, fs', ws. split; [exact Hrun|exact Hmode].
Defined.

Lemma rewrite_twice_noop_witness :
  replaceModuleInFiles ownerEnv 4 ["m"] "example.com/m" "example.org/n"
    (mkWorld (files demoRewritten) (writes demoRewritten))
  = Some (None, mkWorld (files demoRewritten) (writes demoRewritten)).
Proof.
  apply (rewrite_twice_noop ownerEnv 4 ["m"] "example.com/m" "example.org/n"
           demoStore).
  - vm_compute. reflexivity.
  - vm_compute. lia.
  - by_evaluation.
  - apply no_occurrence_check. by_evaluation.
Defined.

(** ** Concrete runs of the further properties *)

Lemma copyDir_terminates_witness :
  exists res,
    copyDir ownerEnv 42 ["m"] ["out"; "x"] demoStore = Some res
    /\ copyDir ownerEnv 50 ["m"] ["out"; "x"] demoStore = Some res.
Proof.
  apply (copyDir_terminates ownerEnv 42 50 ["m"] ["out"; "x"] demoStore).
  - vm_compute. lia.
  - lia.
Defined.

Lemma copyDir_touches_destination_only_witness :
  grows demoStore demoCopied
  /\ (forall q, ~ nested q ["out"; "x"] -> demoCopied !! q = demoStore !! q)
  /\ (~ nested ["m"] ["out"; "x"] ->
      forall q, ["m"] `prefix_of` q -> demoCopied !! q = demoStore !! q).
Proof.
  apply (copyDir_touches_destination_only ownerEnv 3 ["m"] ["out"; "x"]
           demoStore None demoCopied).
  by_evaluation.
Defined.

Lemma copyDir_copies_sources_witness :
  exists m',
    demoCopied !! (["out"; "x"] ++ ["sub"] ++ ["a.go"])
    = Some (File m' "package sub").
Proof.
  apply (copyDir_copies_sources ownerEnv 3 ["m"] ["out"; "x"] demoStore
           demoCopied ["sub"] "a.go" 384%N "package sub").
  - vm_compute. reflexivity.
  - exact nested_witness.
  - by_evaluation.
  - constructor; [vm_compute; reflexivity|constructor].
  - vm_compute. reflexivity.
  - vm_compute. reflexivity.
Defined.

Lemma copyDir_skips_filtered_witness :
  demoCopied !! (["out"; "x"] ++ "vendor" :: ["v.go"])
  = demoStore !! (["out"; "x"] ++ "vendor" :: ["v.go"]).
Proof.
  apply (copyDir_skips_filtered ownerEnv 3 ["m"] ["out"; "x"] demoStore None
           demoCopied "vendor" ["v.go"] nested_witness).
  - by_evaluation.
  - vm_compute. reflexivity.
Defined.

Lemma copyFile_result_witness :
  exists m data,
    testCopyFileStore !! ["source.go"] = Some (File m data)
    /\ (["source.go"] <> ["dest.go"] ->
        <[ ["dest.go"] := File 420%N "package main" ]> testCopyFileStore
          !! ["dest.go"]
        = Some (File (match testCopyFileStore !! ["dest.go"] with
                      | Some n => os.nodeMode n
                      | None => N.ldiff m (umask ownerEnv)
                      end) data)).
Proof.
  assert (copyFile ownerEnv ["source.go"] ["dest.go"] testCopyFileStore
          = (None, <[ ["dest.go"] := File 420%N "package main" ]>
                     testCopyFileStore)) as Hrun by by_evaluation.
  destruct (copyFile_result ownerEnv ["source.go"] ["dest.go"] testCopyFileStore
              _ Hrun) as (m & data & Hsrc & _ & Hdst & _).
  exists m, data. split; [exact Hsrc|exact Hdst].
Defined.

Lemma copyPackages_external_only_witness :
  exists st',
    copyPackages ownerEnv 42 demoFlags "example.com/m" ["m"]
      ["golang.org/x/text"; "rsc.io/quote"] (mkLoop demoStore 0 [] [])
    = Some st'
    /\ store st' = demoStore
    /\ copied st' = 0
    /\ calls st' = [].
Proof.
  destruct (copyPackages_external_only ownerEnv 42 demoFlags "example.com/m"
              ["m"] ["golang.org/x/text"; "rsc.io/quote"]
              (mkLoop demoStore 0 [] []))
    as (st' & Hrun & Hs & Hc & Hcalls & _).
  - constructor; [vm_compute; reflexivity|].
    constructor; [vm_compute; reflexivity|constructor].
  - exists st'. split_and!; [exact Hrun|exact Hs|exact Hc|exact Hcalls].
Defined.

Lemma root_package_copied_to_output_witness :
  exists st',
    copyPackages ownerEnv 42 demoFlags "example.com/m" ["m"] ["example.com/m"]
      (mkLoop demoStore 0 [] []) = Some st'
    /\ calls st' = [(["m"], ["out"])].
Proof.
  apply (root_package_copied_to_output ownerEnv 42 demoFlags "example.com/m"
           ["m"] (mkLoop demoStore 0 [] [])).
  vm_compute. lia.
Defined.
